(** * Stage controller logic (logic/stagecontrol_logic.py)

    A shallow embedding of [StagecontrolLogic]: the command gate in front of
    the positioner ([start_jog], [step], [stop_axis], ...), the timer-driven
    z optimisation ([optimise_z] and its two sampling loops) and the joystick
    translator ([xbox_joystick_move]).

    The methods are written in a small state-and-exception monad over a
    [World] that holds the attributes of [self], the positioner, the view of
    the counter logic, the pending single-shot timers and the trace of every
    call that leaves the module (hardware, counter, timers, signals, log).

    Numbers: step and volt counts are Python integers ([Z]); count-rate
    samples are ordered numbers, taken in [Z]; joystick readings are taken in
    [Q], so that [np.sqrt(x**2 + y**2) < 0.1] reads [x*x + y*y < 1/100]. *)

From Stdlib Require Import String.
From Stdlib Require Import ZArith QArith Qabs List Bool Lia Lqa.
Import ListNotations.
Local Open Scope Z_scope.

(** ** Data model *)

Inductive Axis := axis_x | axis_y | axis_z.

Definition Axis_eqb (a b : Axis) : bool :=
  match a, b with
  | axis_x, axis_x | axis_y, axis_y | axis_z, axis_z => true
  | _, _ => false
  end.

(** Keyword arguments of [set_axis_config] and keys of [get_axis_config]. *)
Inductive ConfigKey := offset_voltage | step_voltage | frequency.

Definition ConfigKey_eqb (a b : ConfigKey) : bool :=
  match a, b with
  | offset_voltage, offset_voltage
  | step_voltage, step_voltage
  | frequency, frequency => true
  | _, _ => false
  end.

(** The calls the module makes on [self.stage_hw]. *)
Module stage_hw.
Inductive Call :=
| set_axis_config (axis : Axis) (kwargs : list (ConfigKey * Z))
| get_axis_config (axis : Axis) (key : ConfigKey)
| move_steps (axis : Axis) (steps : Z)
| start_continuous_motion (axis : Axis) (direction : bool)
| stop_axis (axis : Axis)
| stop_all.
End stage_hw.

(** Exceptions that can travel through the module: the positioner's
    [PositionerError] (with the identity of the fault) and the [ValueError]
    of [np.argmax] on an empty sequence. *)
Inductive Exception := PositionerError (err : Z) | ValueError.

Inductive Result (A : Type) :=
| Return (a : A)
| Raise (e : Exception).
Arguments Return {A} a.
Arguments Raise {A} e.

(** Slots handed to [QtCore.QTimer.singleShot]. *)
Inductive Slot :=
| slot_optimisation_step
| slot_volt_optimisation_step
| slot_start_volt_optimisation.

(** Texts given to [self.log]. *)
Inductive LogMsg :=
| msg_err (err : Z)                 (* the error itself: log.error(err) *)
| msg_aborting_sweep (err : Z)      (* Aborting sweep due to hardware error: {} *)
| msg_could_not_return (err : Z)    (* Could not return stage to optimum position due to hardware error: {} *)
| msg_counter_stopped               (* Sweep aborted: counter unexpectedly stopped. *)
| msg_moving_back (steps : Z)       (* Moving {} steps back *)
| msg_optimum_volts (max_index : Z) (* Optimum at {} volts *)
| msg_optimum_steps (steps : Z).    (* Optimum at {} steps from current position *)

(** Everything the module does to its collaborators, in order.  A hardware
    call is recorded when it is made, with the fault it raised, if any. *)
Inductive Event :=
| Hw (call : stage_hw.Call) (fault : option Z)
| startCount
| stopCount
| singleShot (msec : Z) (slot : Slot)
| sigCountDataUpdated
| sigOptimisationDone
| log_error (msg : LogMsg)
| log_debug (msg : LogMsg).

(** What a sampling tick reads from [self.counter_logic]. *)
Inductive ModuleState := deactivated | idle | running | locked.

Record CounterView := mkCounterView {
  module_state : ModuleState;
  countdata_smoothed_last : Z            (* countdata_smoothed[-1, -2] *)
}.

(** The attributes of [self]. *)
Record Self := mkSelf {
  x_joystick_jog_running : Z;
  y_joystick_jog_running : Z;
  z_joystick_jog_running : Z;
  optimise_delay : Z;
  abort : bool;
  sweep_length : Z;
  v_sweep_length : Z;
  current_step : Z;
  current_v_step : Z;
  sweep_counts : list Z
}.

Definition set_x_joystick_jog_running (v : Z) (s : Self) : Self :=
  mkSelf v (y_joystick_jog_running s) (z_joystick_jog_running s)
    (optimise_delay s) (abort s) (sweep_length s) (v_sweep_length s)
    (current_step s) (current_v_step s) (sweep_counts s).

Definition set_y_joystick_jog_running (v : Z) (s : Self) : Self :=
  mkSelf (x_joystick_jog_running s) v (z_joystick_jog_running s)
    (optimise_delay s) (abort s) (sweep_length s) (v_sweep_length s)
    (current_step s) (current_v_step s) (sweep_counts s).

Definition set_z_joystick_jog_running (v : Z) (s : Self) : Self :=
  mkSelf (x_joystick_jog_running s) (y_joystick_jog_running s) v
    (optimise_delay s) (abort s) (sweep_length s) (v_sweep_length s)
    (current_step s) (current_v_step s) (sweep_counts s).

Definition set_abort (v : bool) (s : Self) : Self :=
  mkSelf (x_joystick_jog_running s) (y_joystick_jog_running s)
    (z_joystick_jog_running s) (optimise_delay s) v (sweep_length s)
    (v_sweep_length s) (current_step s) (current_v_step s) (sweep_counts s).

Definition set_sweep_length (v : Z) (s : Self) : Self :=
  mkSelf (x_joystick_jog_running s) (y_joystick_jog_running s)
    (z_joystick_jog_running s) (optimise_delay s) (abort s) v
    (v_sweep_length s) (current_step s) (current_v_step s) (sweep_counts s).

Definition set_v_sweep_length (v : Z) (s : Self) : Self :=
  mkSelf (x_joystick_jog_running s) (y_joystick_jog_running s)
    (z_joystick_jog_running s) (optimise_delay s) (abort s) (sweep_length s)
    v (current_step s) (current_v_step s) (sweep_counts s).

Definition set_current_step (v : Z) (s : Self) : Self :=
  mkSelf (x_joystick_jog_running s) (y_joystick_jog_running s)
    (z_joystick_jog_running s) (optimise_delay s) (abort s) (sweep_length s)
    (v_sweep_length s) v (current_v_step s) (sweep_counts s).

Definition set_current_v_step (v : Z) (s : Self) : Self :=
  mkSelf (x_joystick_jog_running s) (y_joystick_jog_running s)
    (z_joystick_jog_running s) (optimise_delay s) (abort s) (sweep_length s)
    (v_sweep_length s) (current_step s) v (sweep_counts s).

Definition set_sweep_counts (v : list Z) (s : Self) : Self :=
  mkSelf (x_joystick_jog_running s) (y_joystick_jog_running s)
    (z_joystick_jog_running s) (optimise_delay s) (abort s) (sweep_length s)
    (v_sweep_length s) (current_step s) (current_v_step s) v.

(** [on_activate]: the jog flags start at 0, the delay is 100 ms and the
    abort flag is down.  The sweep attributes do not exist before the first
    [optimise_z]; they are given neutral values here and every sweep
    overwrites them before it reads them. *)
Definition on_activate : Self :=
  {| x_joystick_jog_running := 0;
     y_joystick_jog_running := 0;
     z_joystick_jog_running := 0;
     optimise_delay := 100;
     abort := false;
     sweep_length := 0;
     v_sweep_length := 0;
     current_step := 0;
     current_v_step := 0;
     sweep_counts := [] |}.

(** ** The world around the module *)

(** The positioner is not part of this module: it is seen through its
    interface.  It keeps one value per axis and configuration key,
    [set_axis_config] stores its keyword arguments, [get_axis_config] reads
    one back, and the [k]-th call made on it (counted from 0) raises
    [PositionerError err] when [hw_fault k = Some err]. *)
Record World := mkWorld {
  self : Self;
  hw_config : Axis -> ConfigKey -> Z;
  hw_fault : nat -> option Z;
  hw_calls : nat;
  counter : CounterView;
  timers : list Slot;
  trace : list Event
}.

Definition upd_self (f : Self -> Self) (w : World) : World :=
  mkWorld (f (self w)) (hw_config w) (hw_fault w) (hw_calls w) (counter w)
    (timers w) (trace w).

Definition set_counter (cv : CounterView) (w : World) : World :=
  mkWorld (self w) (hw_config w) (hw_fault w) (hw_calls w) cv
    (timers w) (trace w).

Definition set_timers (ts : list Slot) (w : World) : World :=
  mkWorld (self w) (hw_config w) (hw_fault w) (hw_calls w) (counter w)
    ts (trace w).

Definition record (e : Event) (w : World) : World :=
  mkWorld (self w) (hw_config w) (hw_fault w) (hw_calls w) (counter w)
    (timers w) (trace w ++ [e]).

Definition store_config (axis : Axis) (kwargs : list (ConfigKey * Z))
    (cfg : Axis -> ConfigKey -> Z) : Axis -> ConfigKey -> Z :=
  fold_left
    (fun c kv a k =>
       if Axis_eqb a axis && ConfigKey_eqb k (fst kv) then snd kv else c a k)
    kwargs cfg.

(** Effect of a call the positioner accepts: the new configuration and the
    value handed back (0 stands for Python's [None]). *)
Definition hw_accept (c : stage_hw.Call) (cfg : Axis -> ConfigKey -> Z)
    : (Axis -> ConfigKey -> Z) * Z :=
  match c with
  | stage_hw.set_axis_config axis kwargs => (store_config axis kwargs cfg, 0)
  | stage_hw.get_axis_config axis key => (cfg, cfg axis key)
  | _ => (cfg, 0)
  end.

(** ** The monad of the methods *)

Definition M (A : Type) : Type := World -> Result A * World.

Definition ret {A} (a : A) : M A := fun w => (Return a, w).

Definition bind {A B} (m : M A) (k : A -> M B) : M B :=
  fun w =>
    match m w with
    | (Return a, w') => k a w'
    | (Raise e, w') => (Raise e, w')
    end.

Definition raise {A} (e : Exception) : M A := fun w => (Raise e, w).

Declare Scope stage_scope.
Delimit Scope stage_scope with stage.
Notation "x <- c1 ;; c2" := (bind c1 (fun x => c2))
  (at level 61, c1 at next level, right associativity) : stage_scope.
Notation "c1 ;; c2" := (bind c1 (fun _ => c2))
  (at level 61, right associativity) : stage_scope.
Local Open Scope stage_scope.

(** [try: body / except PositionerError as err: ...]: the outcome of the
    body, with a [PositionerError] caught; any other exception goes on. *)
Definition try_ {A} (body : M A) : M (Z + A) :=
  fun w =>
    match body w with
    | (Return a, w') => (Return (inr a), w')
    | (Raise (PositionerError err), w') => (Return (inl err), w')
    | (Raise e, w') => (Raise e, w')
    end.

Definition gets {A} (f : Self -> A) : M A := fun w => (Return (f (self w)), w).

Definition modify (f : Self -> Self) : M unit :=
  fun w => (Return tt, upd_self f w).

Definition emit (e : Event) : M unit := fun w => (Return tt, record e w).

(** A call on [self.stage_hw]. *)
Definition call_hw (c : stage_hw.Call) : M Z :=
  fun w =>
    match hw_fault w (hw_calls w) with
    | Some err =>
        (Raise (PositionerError err),
         mkWorld (self w) (hw_config w) (hw_fault w) (S (hw_calls w))
           (counter w) (timers w) (trace w ++ [Hw c (Some err)]))
    | None =>
        let (cfg, v) := hw_accept c (hw_config w) in
        (Return v,
         mkWorld (self w) cfg (hw_fault w) (S (hw_calls w))
           (counter w) (timers w) (trace w ++ [Hw c None]))
    end.

(** [QtCore.QTimer.singleShot(msec, slot)]. *)
Definition QTimer_singleShot (msec : Z) (slot : Slot) : M unit :=
  fun w =>
    (Return tt,
     mkWorld (self w) (hw_config w) (hw_fault w) (hw_calls w) (counter w)
       (timers w ++ [slot]) (trace w ++ [singleShot msec slot])).

Definition counter_module_state : M ModuleState :=
  fun w => (Return (module_state (counter w)), w).

Definition counter_countdata_smoothed : M Z :=
  fun w => (Return (countdata_smoothed_last (counter w)), w).

(** [with self.threadlock]: the methods run one at a time here, so the
    lock changes nothing. *)
Definition thread_lock {A} (func : M A) : M A := func.

(** The decorator that throws away the positioner's exceptions: the result
    of [func], or [None] after logging the error. *)
Definition hwerror_handler {A} (func : M A) : M (option A) :=
  r <- try_ func ;;
  match r with
  | inr a => ret (Some a)
  | inl err => emit (log_error (msg_err err)) ;; ret None
  end.

(** ** The command gate *)

Definition start_jog (axis : Axis) (direction : bool) : M (option unit) :=
  hwerror_handler (
    (* Zero offset voltage before stepping *)
    call_hw (stage_hw.set_axis_config axis [(offset_voltage, 0)]) ;;
    call_hw (stage_hw.start_continuous_motion axis direction) ;;
    ret tt).

Definition step (axis : Axis) (steps : Z) : M (option unit) :=
  hwerror_handler (
    (* Zero offset voltage before stepping *)
    call_hw (stage_hw.set_axis_config axis [(offset_voltage, 0)]) ;;
    call_hw (stage_hw.move_steps axis steps) ;;
    ret tt).

Definition stop : M (option unit) :=
  hwerror_handler (call_hw stage_hw.stop_all ;; ret tt).

Definition stop_axis (axis : Axis) : M (option unit) :=
  hwerror_handler (
    call_hw (stage_hw.stop_axis axis) ;;
    call_hw (stage_hw.set_axis_config axis [(offset_voltage, 0)]) ;;
    ret tt).

Definition set_axis_params (axis : Axis) (volt freq : Z) : M (option unit) :=
  hwerror_handler (
    call_hw (stage_hw.set_axis_config axis
               [(step_voltage, volt); (frequency, freq)]) ;;
    ret tt).

Definition get_axis_params (axis : Axis) : M (option (Z * Z)) :=
  hwerror_handler (
    volt <- call_hw (stage_hw.get_axis_config axis step_voltage) ;;
    freq <- call_hw (stage_hw.get_axis_config axis frequency) ;;
    ret (volt, freq)).

(** ** The z optimisation *)

(** [np.argmax]: the index of the first occurrence of the maximum.
    [argmax_from best besti i l] scans [l], whose head has index [i], with
    the best value so far and its index. *)
Fixpoint argmax_from (best : Z) (besti : nat) (i : nat) (l : list Z) : nat :=
  match l with
  | [] => besti
  | c :: l' =>
      if best <? c then argmax_from c i (S i) l'
      else argmax_from best besti (S i) l'
  end.

Definition argmax (l : list Z) : option nat :=
  match l with
  | [] => None
  | c :: l' => Some (argmax_from c 0%nat 1%nat l')
  end.

Definition np_argmax (l : list Z) : M Z :=
  match argmax l with
  | Some i => ret (Z.of_nat i)
  | None => raise ValueError
  end.

Definition _start_step_optimisation : M unit :=
  (* Start stepping optimisation routine *)
  len <- gets sweep_length ;;
  modify (set_current_step (- len)) ;;
  modify (set_sweep_counts []) ;;
  (* Zero offset voltage for stepping operations *)
  call_hw (stage_hw.set_axis_config axis_z [(offset_voltage, 0)]) ;;
  (* Move to end of search range *)
  cur <- gets current_step ;;
  r <- try_ (call_hw (stage_hw.move_steps axis_z cur)) ;;
  match r with
  | inl err => emit (log_error (msg_aborting_sweep err))
  | inr _ =>
      (* Start counter running *)
      emit startCount ;;
      (* first delay 4x as long to allow counter extra time to start *)
      delay <- gets optimise_delay ;;
      QTimer_singleShot (delay * 4) slot_optimisation_step
  end.

Definition _start_volt_optimisation : M unit :=
  (* Start offset voltage (fine) optimisation routine *)
  modify (set_current_v_step 0) ;;
  modify (set_sweep_counts []) ;;
  (* Move one step back and an additional 1 step per 20 V in volt sweep *)
  len <- gets v_sweep_length ;;
  let steps := len / 20 + 1 in
  emit (log_debug (msg_moving_back steps)) ;;
  call_hw (stage_hw.move_steps axis_z (- steps)) ;;
  (* Start counter running *)
  emit startCount ;;
  delay <- gets optimise_delay ;;
  QTimer_singleShot (delay * 4) slot_volt_optimisation_step.

Definition optimise_z (steps volts : Z) : M unit :=
  (* Initialise variables *)
  modify (set_sweep_length steps) ;;
  modify (set_v_sweep_length volts) ;;
  modify (set_abort false) ;;
  if 0 <? steps then
    (* Stepping optimisation *)
    _start_step_optimisation
  else if 0 <? volts then
    (* Offset V optimisation *)
    _start_volt_optimisation
  else ret tt.

Definition is_locked (s : ModuleState) : bool :=
  match s with locked => true | _ => false end.

Definition _volt_optimisation_step : M unit :=
  thread_lock (
    ab <- gets abort ;;
    if ab then emit stopCount
    else
      st <- counter_module_state ;;
      (* Check if counter logic module is locked *)
      if is_locked st then
        (* Get last count value and store *)
        counts <- counter_countdata_smoothed ;;
        modify (fun s => set_sweep_counts (sweep_counts s ++ [counts]) s) ;;
        emit sigCountDataUpdated ;;
        cur <- gets current_v_step ;;
        len <- gets v_sweep_length ;;
        if cur <? len then
          r <- try_ (call_hw (stage_hw.set_axis_config axis_z
                                [(offset_voltage, cur)])) ;;
          match r with
          | inl err =>
              emit (log_error (msg_aborting_sweep err)) ;;
              emit stopCount
          | inr _ =>
              modify (fun s => set_current_v_step (current_v_step s + 1) s) ;;
              (* Start timer for next iteration *)
              delay <- gets optimise_delay ;;
              QTimer_singleShot delay slot_volt_optimisation_step
          end
        else
          (* Find index of maximum point, which will equal required offset
             voltage *)
          l <- gets sweep_counts ;;
          max_index <- np_argmax l ;;
          emit (log_debug (msg_optimum_volts max_index)) ;;
          (* Set offset voltage to this maximum. *)
          r <- try_ (call_hw (stage_hw.set_axis_config axis_z
                                [(offset_voltage, max_index)])) ;;
          match r with
          | inl err => emit (log_error (msg_could_not_return err))
          | inr _ => ret tt
          end ;;
          emit sigOptimisationDone
      else ret tt).

Definition _optimisation_step : M unit :=
  thread_lock (
    ab <- gets abort ;;
    if ab then emit stopCount
    else
      st <- counter_module_state ;;
      (* Check if counter logic module is locked *)
      if is_locked st then
        (* Get last count value and store *)
        counts <- counter_countdata_smoothed ;;
        modify (fun s => set_sweep_counts (sweep_counts s ++ [counts]) s) ;;
        emit sigCountDataUpdated ;;
        cur <- gets current_step ;;
        len <- gets sweep_length ;;
        if cur <? len then
          (* If not already at end of sweep move stage 1 step *)
          r <- try_ (call_hw (stage_hw.move_steps axis_z 1)) ;;
          match r with
          | inl err =>
              emit (log_error (msg_aborting_sweep err)) ;;
              emit stopCount
          | inr _ =>
              modify (fun s => set_current_step (current_step s + 1) s) ;;
              (* Start timer for next iteration *)
              delay <- gets optimise_delay ;;
              QTimer_singleShot delay slot_optimisation_step
          end
        else
          (* Find index of maximum point, and calculate how far back to
             move *)
          l <- gets sweep_counts ;;
          max_index <- np_argmax l ;;
          len' <- gets sweep_length ;;
          let steps := 2 * len' - max_index in
          emit (log_debug (msg_optimum_steps steps)) ;;
          (* Do the movement *)
          r <- try_ (if 0 <? steps
                     then
                       (* Move stage if needed (note steps=0 seems to give
                          continuous motion) *)
                       call_hw (stage_hw.move_steps axis_z (- steps)) ;; ret tt
                     else ret tt) ;;
          match r with
          | inl err => emit (log_error (msg_could_not_return err))
          | inr _ => ret tt
          end ;;
          vlen <- gets v_sweep_length ;;
          if 0 <? vlen then
            (* If fine voltage sweep requested, start it after small delay *)
            delay <- gets optimise_delay ;;
            QTimer_singleShot (delay * 4) slot_start_volt_optimisation
          else
            (* Otherwise emit Optimisation Done signal and return *)
            emit sigOptimisationDone
      else emit (log_error msg_counter_stopped)).

Definition abort_optimisation : M unit :=
  thread_lock (modify (set_abort true)).

(** ** The event loop *)

Definition run_slot (s : Slot) : M unit :=
  match s with
  | slot_optimisation_step => _optimisation_step
  | slot_volt_optimisation_step => _volt_optimisation_step
  | slot_start_volt_optimisation => _start_volt_optimisation
  end.

(** The state left by a method call; an exception that escapes the method
    ends the call and leaves what was done before it. *)
Definition exec {A} (m : M A) (w : World) : World := snd (m w).

(** The oldest pending single-shot timer expires while the counter logic
    shows [cv]: its slot runs. *)
Definition fire (cv : CounterView) (w : World) : World :=
  match timers w with
  | [] => w
  | s :: ts => exec (run_slot s) (set_counter cv (set_timers ts w))
  end.

(** One expiry per view, in order. *)
Definition run_timers (cvs : list CounterView) (w : World) : World :=
  fold_left (fun w cv => fire cv w) cvs w.

(** The view of a running counter whose latest smoothed count is [c]. *)
Definition counting (c : Z) : CounterView := mkCounterView locked c.

(** ** The joystick translator *)

Record JoystickState := mkJoystickState {
  x_left : Q;
  y_left : Q;
  y_right : Q
}.

Definition Qlt_bool (a b : Q) : bool := negb (Qle_bool b a).

(** [np.sign] of a joystick reading. *)
Definition np_sign (q : Q) : Z := Z.sgn (Qnum q).

(** The sector policy of the left-hand joystick: [(required_x, required_y)]. *)
Definition required (x y : Q) : Z * Z :=
  if Qlt_bool (x * x + y * y) (1 # 100) then
    (* Circular dead-zone *)
    (0, 0)
  else if Qlt_bool (Qabs (2 * x)) (Qabs y) then
    (* If in the exclusive y motion sector, just move in y *)
    (0, np_sign y)
  else if Qlt_bool (Qabs (2 * y)) (Qabs x) then
    (* If in the exclusive x motion sector, just move in x *)
    (np_sign x, 0)
  else
    (* If somewhere else, move if the axis is non-zero. *)
    (if negb (Qeq_bool x 0) then np_sign x else 0,
     if negb (Qeq_bool y 0) then np_sign y else 0).

Definition xbox_joystick_move (joystick_state : JoystickState) : M unit :=
  (* Z-control on y-axis of right-hand joystick *)
  let z := y_right joystick_state in
  z_running <- gets z_joystick_jog_running ;;
  (if Qeq_bool z 0 && negb (z_running =? 0) then
     (* If joystick zeroed and cube is currently moving, stop. *)
     stop_axis axis_z ;;
     modify (set_z_joystick_jog_running 0)
   else if negb (np_sign z =? Z.sgn z_running) then
     (* Otherwise, move in appropriate direction if needed. *)
     if Qlt_bool 0 z then
       start_jog axis_z false ;;
       modify (set_z_joystick_jog_running 1)
     else if Qlt_bool z 0 then
       start_jog axis_z true ;;
       modify (set_z_joystick_jog_running (-1))
     else ret tt
   else ret tt) ;;
  (* x,y control on left-hand joystick *)
  let x := x_left joystick_state in
  let y := y_left joystick_state in
  let (required_x, required_y) := required x y in
  (* Do required movements, checking flags to minimise commands sent *)
  x_running <- gets x_joystick_jog_running ;;
  (if (required_x =? 0) && negb (x_running =? 0) then
     (* Stop x *)
     stop_axis axis_x ;;
     modify (set_x_joystick_jog_running 0)
   else ret tt) ;;
  y_running <- gets y_joystick_jog_running ;;
  (if (required_y =? 0) && negb (y_running =? 0) then
     (* Stop y *)
     stop_axis axis_y ;;
     modify (set_y_joystick_jog_running 0)
   else ret tt) ;;
  y_running <- gets y_joystick_jog_running ;;
  (if negb (required_y =? 0)
      && (negb (Z.sgn y_running =? Z.sgn required_y) || (y_running =? 0)) then
     (* Move y *)
     if Qlt_bool 0 y then
       start_jog axis_y true ;;
       modify (set_y_joystick_jog_running 1)
     else if Qlt_bool y 0 then
       start_jog axis_y false ;;
       modify (set_y_joystick_jog_running (-1))
     else ret tt
   else ret tt) ;;
  x_running <- gets x_joystick_jog_running ;;
  (if negb (required_x =? 0)
      && (negb (Z.sgn x_running =? Z.sgn required_x) || (x_running =? 0)) then
     (* Move x *)
     if Qlt_bool 0 x then
       start_jog axis_x true ;;
       modify (set_x_joystick_jog_running 1)
     else if Qlt_bool x 0 then
       start_jog axis_x false ;;
       modify (set_x_joystick_jog_running (-1))
     else ret tt
   else ret tt).

(** A world fresh from [on_activate]: nothing configured on the positioner,
    no timer pending, nothing done yet. *)
Definition world0 (faults : nat -> option Z) : World :=
  {| self := on_activate;
     hw_config := fun _ _ => 0;
     hw_fault := faults;
     hw_calls := 0%nat;
     counter := mkCounterView idle 0;
     timers := [];
     trace := [] |}.

(** A positioner that accepts every call. *)
Definition no_fault : nat -> option Z := fun _ => None.

(** * Vocabulary of the properties *)

(** ** Reading traces *)

(** The hardware calls of a trace, in order. *)
Definition hw_calls_of (tr : list Event) : list stage_hw.Call :=
  flat_map (fun e => match e with Hw c _ => [c] | _ => [] end) tr.

(** The offset voltages written to [axis], in order. *)
Definition offset_writes (axis : Axis) (tr : list Event) : list Z :=
  flat_map
    (fun e =>
       match e with
       | Hw (stage_hw.set_axis_config a kwargs) _ =>
           if Axis_eqb a axis then
             flat_map (fun kv => match fst kv with
                                 | offset_voltage => [snd kv]
                                 | _ => []
                                 end) kwargs
           else []
       | _ => []
       end) tr.

(** The cursor values [start], [start + 1], ..., [n] of them. *)
Fixpoint cursors (start : Z) (n : nat) : list Z :=
  match n with
  | O => []
  | S n' => start :: cursors (start + 1) n'
  end.

(** [i] is the index of the first occurrence of the maximum of [l]. *)
Definition first_max (l : list Z) (i : nat) : Prop :=
  (i < length l)%nat /\
  (forall j, (j < length l)%nat -> nth j l 0 <= nth i l 0) /\
  (forall j, (j < i)%nat -> nth j l 0 < nth i l 0).

(** ** What the sweeps leave in the trace *)

(** What a sweep leaves alone: the abort flag, the two lengths, the delay
    and the positioner's fault schedule. *)
Definition same_session (w w' : World) : Prop :=
  abort (self w') = abort (self w) /\
  sweep_length (self w') = sweep_length (self w) /\
  v_sweep_length (self w') = v_sweep_length (self w) /\
  optimise_delay (self w') = optimise_delay (self w) /\
  hw_fault w' = hw_fault w.

(** The events of one sampling tick of the step sweep that moves on. *)
Definition step_tick (delay : Z) : list Event :=
  [sigCountDataUpdated;
   Hw (stage_hw.move_steps axis_z 1) None;
   singleShot delay slot_optimisation_step].

(** The relocation after the step sweep: nothing when the offset is 0, one
    move back otherwise (and the log entry if the positioner faults). *)
Definition corrective_move (offset : Z) (fault : option Z) : list Event :=
  if 0 <? offset then
    Hw (stage_hw.move_steps axis_z (- offset)) fault ::
    match fault with
    | Some err => [log_error (msg_could_not_return err)]
    | None => []
    end
  else [].

(** How the step sweep ends: the volt sweep is scheduled, or the
    optimisation is done. *)
Definition step_sweep_end (delay vlen : Z) : Event :=
  if 0 <? vlen then singleShot (delay * 4) slot_start_volt_optimisation
  else sigOptimisationDone.

(** The events of [optimise_z] when it starts the step sweep. *)
Definition step_sweep_out (delay steps : Z) : list Event :=
  [Hw (stage_hw.set_axis_config axis_z [(offset_voltage, 0)]) None;
   Hw (stage_hw.move_steps axis_z (- steps)) None;
   startCount;
   singleShot (delay * 4) slot_optimisation_step].

(** The events of one sampling tick of the volt sweep that moves on, at
    cursor value [cursor]. *)
Definition volt_tick (delay cursor : Z) : list Event :=
  [sigCountDataUpdated;
   Hw (stage_hw.set_axis_config axis_z [(offset_voltage, cursor)]) None;
   singleShot delay slot_volt_optimisation_step].

(** The events of [_start_volt_optimisation]. *)
Definition volt_sweep_out (delay volts : Z) : list Event :=
  [log_debug (msg_moving_back (volts / 20 + 1));
   Hw (stage_hw.move_steps axis_z (- (volts / 20 + 1))) None;
   startCount;
   singleShot (delay * 4) slot_volt_optimisation_step].

(** The events of the tick that ends the volt sweep. *)
Definition volt_sweep_end (max_index : Z) (fault : option Z) : list Event :=
  [sigCountDataUpdated;
   log_debug (msg_optimum_volts max_index);
   Hw (stage_hw.set_axis_config axis_z [(offset_voltage, max_index)]) fault] ++
  match fault with
  | Some err => [log_error (msg_could_not_return err)]
  | None => []
  end ++
  [sigOptimisationDone].

(** ** Offset voltage against motion *)

(** The motion commands of a trace that were issued while the moved axis
    had a nonzero offset voltage, for a positioner that starts with the
    configuration [cfg]. *)
Fixpoint motion_with_offset (cfg : Axis -> ConfigKey -> Z) (tr : list Event)
    : list stage_hw.Call :=
  match tr with
  | [] => []
  | Hw c fault :: tr' =>
      match c with
      | stage_hw.move_steps a _ | stage_hw.start_continuous_motion a _ =>
          if cfg a offset_voltage =? 0 then [] else [c]
      | _ => []
      end ++
      motion_with_offset
        (match fault with
         | None => fst (hw_accept c cfg)
         | Some _ => cfg
         end) tr'
  | _ :: tr' => motion_with_offset cfg tr'
  end.

(** ** Reading the joystick translator *)

(** The jog flag of an axis. *)
Definition jog_running (a : Axis) (s : Self) : Z :=
  match a with
  | axis_x => x_joystick_jog_running s
  | axis_y => y_joystick_jog_running s
  | axis_z => z_joystick_jog_running s
  end.

Definition set_jog_running (a : Axis) (v : Z) (s : Self) : Self :=
  match a with
  | axis_x => set_x_joystick_jog_running v s
  | axis_y => set_y_joystick_jog_running v s
  | axis_z => set_z_joystick_jog_running v s
  end.

(** The direction a sample asks of an axis: the sign of the right-hand
    reading for z, the sector policy for x and y. *)
Definition desired (js : JoystickState) (a : Axis) : Z :=
  match a with
  | axis_x => fst (required (x_left js) (y_left js))
  | axis_y => snd (required (x_left js) (y_left js))
  | axis_z => np_sign (y_right js)
  end.

(** The jog flag that goes with the [direction] argument of [start_jog]:
    on z a positive reading jogs with [False], on x and y with [True]. *)
Definition jog_direction (a : Axis) (direction : bool) : Z :=
  match a with
  | axis_z => if direction then -1 else 1
  | _ => if direction then 1 else -1
  end.

(** The direction a hardware call commands on axis [a], if it commands
    one. *)
Definition commanded (a : Axis) (e : Event) : option Z :=
  match e with
  | Hw (stage_hw.start_continuous_motion a' d) _ =>
      if Axis_eqb a' a then Some (jog_direction a d) else None
  | Hw (stage_hw.stop_axis a') _ => if Axis_eqb a' a then Some 0 else None
  | Hw stage_hw.stop_all _ => Some 0
  | _ => None
  end.

(** The last direction commanded on [a] along a trace; [d0] before any. *)
Definition last_commanded_from (a : Axis) (d0 : Z) (tr : list Event) : Z :=
  fold_left (fun d e => match commanded a e with
                        | Some d' => d'
                        | None => d
                        end) tr d0.

Definition last_commanded (a : Axis) (tr : list Event) : Z :=
  last_commanded_from a 0 tr.

(** The samples of a sequence, handled one after the other. *)
Definition run_joystick (samples : list JoystickState) (w : World) : World :=
  fold_left (fun w js => exec (xbox_joystick_move js) w) samples w.

(** ** The translator as a plan

    For the proofs, [xbox_joystick_move] is read as a plan: the calls it
    makes on the command gate ([start_jog], [stop_axis]), in order, and the
    attributes it leaves. *)

Inductive GateCall :=
| gate_start_jog (axis : Axis) (direction : bool)
| gate_stop_axis (axis : Axis).

Definition run_gate (g : GateCall) : M (option unit) :=
  match g with
  | gate_start_jog a d => start_jog a d
  | gate_stop_axis a => stop_axis a
  end.

(** The world a gate call leaves, and the value it returns (these methods never
    raise). *)
Definition gate_world (g : GateCall) (w : World) : World := snd (run_gate g w).

Definition gate_value (g : GateCall) (w : World) : option unit :=
  match fst (run_gate g w) with
  | Return r => r
  | Raise _ => None
  end.

Fixpoint run_gates (gs : list GateCall) (w : World) : World :=
  match gs with
  | [] => w
  | g :: gs' => run_gates gs' (gate_world g w)
  end.

(** A plan: gate calls and the attributes after them. *)
Definition Plan := (list GateCall * Self)%type.

Definition plan_then (p : Plan) (f : Self -> Plan) : Plan :=
  let (gs', s') := f (snd p) in (fst p ++ gs', s').

(** What each part of the translator decides from the jog flag [r] of its
    axis: the gate calls to make and the new flag. *)
Definition flag_z (z : Q) (r : Z) : list GateCall * Z :=
  if Qeq_bool z 0 && negb (r =? 0) then ([gate_stop_axis axis_z], 0)
  else if negb (np_sign z =? Z.sgn r) then
    if Qlt_bool 0 z then ([gate_start_jog axis_z false], 1)
    else if Qlt_bool z 0 then ([gate_start_jog axis_z true], -1)
    else ([], r)
  else ([], r).

Definition flag_stop (a : Axis) (req : Z) (r : Z) : list GateCall * Z :=
  if (req =? 0) && negb (r =? 0) then ([gate_stop_axis a], 0)
  else ([], r).

Definition flag_move (a : Axis) (req : Z) (v : Q) (r : Z)
    : list GateCall * Z :=
  if negb (req =? 0) && (negb (Z.sgn r =? Z.sgn req) || (r =? 0)) then
    if Qlt_bool 0 v then ([gate_start_jog a true], 1)
    else if Qlt_bool v 0 then ([gate_start_jog a false], -1)
    else ([], r)
  else ([], r).

(** The five parts of [xbox_joystick_move], in its order: z, stop x,
    stop y, move y, move x. *)
Definition plan_z (z : Q) (s : Self) : Plan :=
  let f := flag_z z (z_joystick_jog_running s) in
  (fst f, set_z_joystick_jog_running (snd f) s).

Definition plan_stop (a : Axis) (req : Z) (s : Self) : Plan :=
  let f := flag_stop a req (jog_running a s) in
  (fst f, set_jog_running a (snd f) s).

Definition plan_move (a : Axis) (req : Z) (v : Q) (s : Self) : Plan :=
  let f := flag_move a req v (jog_running a s) in
  (fst f, set_jog_running a (snd f) s).

Definition jog_plan (js : JoystickState) (s : Self) : Plan :=
  let rx := desired js axis_x in
  let ry := desired js axis_y in
  plan_then (plan_z (y_right js) s) (fun s0 =>
  plan_then (plan_stop axis_x rx s0) (fun s1 =>
  plan_then (plan_stop axis_y ry s1) (fun s2 =>
  plan_then (plan_move axis_y ry (y_left js) s2)
    (plan_move axis_x rx (x_left js))))).

(** The hardware events a gate call can leave: its own two calls, with any
    outcome, and log entries. *)
Definition gate_event (g : GateCall) (e : Event) : Prop :=
  match g with
  | gate_start_jog a d =>
      (exists f, e = Hw (stage_hw.set_axis_config a [(offset_voltage, 0)]) f) \/
      (exists f, e = Hw (stage_hw.start_continuous_motion a d) f) \/
      (exists m, e = log_error m)
  | gate_stop_axis a =>
      (exists f, e = Hw (stage_hw.set_axis_config a [(offset_voltage, 0)]) f) \/
      (exists f, e = Hw (stage_hw.stop_axis a) f) \/
      (exists m, e = log_error m)
  end.

(** The direction a gate call stands for, on its axis. *)
Definition gate_axis (g : GateCall) : Axis :=
  match g with gate_start_jog a _ | gate_stop_axis a => a end.

Definition gate_direction (g : GateCall) : Z :=
  match g with
  | gate_start_jog a d => jog_direction a d
  | gate_stop_axis _ => 0
  end.

(** The direction of the last gate call made on [a]; [d0] before any. *)
Definition last_gate (a : Axis) (d0 : Z) (gs : list GateCall) : Z :=
  fold_left (fun d g => if Axis_eqb (gate_axis g) a then gate_direction g
                        else d) gs d0.

(** A plan, run: its gate calls are made and its attributes stored. *)
Definition run_plan (p : Self -> Plan) : M unit :=
  fun w =>
    (Return tt,
     upd_self (fun _ => snd (p (self w))) (run_gates (fst (p (self w))) w)).

(** A gate call of a plan is made on a change only: a start when the
    desired direction [dsr] differs from the flag [r], in that direction; a
    stop when the flag is up and nothing is desired. *)
Definition on_change (a : Axis) (dsr r : Z) (g : GateCall) : Prop :=
  match g with
  | gate_start_jog a' d => a' = a /\ dsr <> r /\ jog_direction a d = dsr
  | gate_stop_axis a' => a' = a /\ r <> 0 /\ dsr = 0
  end.

(** The flag [snd f] is the direction of the last call of [fst f], and the
    calls are all on axis [a]. *)
Definition tracks (a : Axis) (r : Z) (f : list GateCall * Z) : Prop :=
  last_gate a r (fst f) = snd f /\
  forall a' d0, a' <> a -> last_gate a' d0 (fst f) = d0.

(** ** The buttons *)

(** [xbox_button_press]: three independent tests on the name of the
    button, as in the source. *)
Definition xbox_button_press (button : string) : M unit :=
  (* D-pad: click x and y *)
  (if String.eqb button "left_down" then
     (* D-pad down *)
     step axis_y (-1) ;; ret tt
   else if String.eqb button "left_up" then
     (* D-pad up *)
     step axis_y 1 ;; ret tt
   else ret tt) ;;
  (if String.eqb button "left_left" then
     (* D-pad left *)
     step axis_x (-1) ;; ret tt
   else if String.eqb button "left_right" then
     (* D-pad right *)
     step axis_x 1 ;; ret tt
   else if String.eqb button "right_right" then
     (* B button *)
     stop ;; ret tt
   else ret tt) ;;
  (* Shoulder buttons: left - z down, right - z up *)
  (if String.eqb button "left_shoulder" then
     (* Left shoulder *)
     step axis_z (-1) ;; ret tt
   else if String.eqb button "right_shoulder" then
     (* Right shoulder *)
     step axis_z 1 ;; ret tt
   else ret tt).

(** The names [xbox_button_press] knows. *)
Definition known_buttons : list string :=
  ["left_down"; "left_up"; "left_left"; "left_right"; "right_right";
   "left_shoulder"; "right_shoulder"]%string.

(** ** More readings of a trace *)

(** The steps an axis was moved by the [move_steps] calls the positioner
    accepted, summed with their signs. *)
Fixpoint steps_moved (axis : Axis) (tr : list Event) : Z :=
  match tr with
  | [] => 0
  | Hw (stage_hw.move_steps a k) None :: tr' =>
      (if Axis_eqb a axis then k else 0) + steps_moved axis tr'
  | _ :: tr' => steps_moved axis tr'
  end.

(** How often an event occurs in a trace. *)
Definition is_done (e : Event) : bool :=
  match e with sigOptimisationDone => true | _ => false end.

Definition is_startCount (e : Event) : bool :=
  match e with startCount => true | _ => false end.

Definition is_stopCount (e : Event) : bool :=
  match e with stopCount => true | _ => false end.

Definition occurrences (p : Event -> bool) (tr : list Event) : nat :=
  length (filter p tr).

(** An upper bound on the timer expiries an optimisation still needs: the
    rest of the step loop, the start of the volt sweep, the rest of the volt
    loop, as far as the pending timer says. *)
Definition ticks_left (w : World) : nat :=
  match timers w with
  | [] => 0
  | slot_volt_optimisation_step :: _ =>
      1 + Z.to_nat (v_sweep_length (self w) - current_v_step (self w))
  | slot_start_volt_optimisation :: _ =>
      2 + Z.to_nat (v_sweep_length (self w))
  | slot_optimisation_step :: _ =>
      3 + Z.to_nat (v_sweep_length (self w))
        + Z.to_nat (sweep_length (self w) - current_step (self w))
  end.

(** The jog flags are directions: -1, 0 or 1. *)
Definition is_direction (d : Z) : Prop := d = -1 \/ d = 0 \/ d = 1.

(** What a manual command leaves alone: the attributes of [self] (the
    sweep's cursor, samples and abort flag, the jog flags), the pending
    timers, the counter and the positioner's fault schedule. *)
Definition undisturbed (w w' : World) : Prop :=
  self w' = self w /\ timers w' = timers w /\ counter w' = counter w /\
  hw_fault w' = hw_fault w.

(** The configuration the positioner holds after the calls of a trace it
    accepted, starting from [cfg]. *)
Fixpoint config_after (cfg : Axis -> ConfigKey -> Z) (tr : list Event)
    : Axis -> ConfigKey -> Z :=
  match tr with
  | [] => cfg
  | Hw c None :: tr' => config_after (fst (hw_accept c cfg)) tr'
  | _ :: tr' => config_after cfg tr'
  end.

(** The attributes of a sweep: everything in [self] but the jog flags. *)
Definition sweep_attributes (s : Self) : Z * bool * Z * Z * Z * Z * list Z :=
  (optimise_delay s, abort s, sweep_length s, v_sweep_length s,
   current_step s, current_v_step s, sweep_counts s).

(** * Properties *)

#[local] Arguments Z.mul : simpl never.
#[local] Arguments Z.add : simpl never.
#[local] Arguments Z.sub : simpl never.
#[local] Arguments Z.opp : simpl never.
#[local] Arguments Z.div : simpl never.
#[local] Arguments Z.ltb : simpl never.
#[local] Arguments Z.eqb : simpl never.
#[local] Arguments Z.sgn : simpl never.

(** ** [np.argmax] *)

Lemma argmax_from_first_max (l p : list Z) (best : Z) (besti : nat) :
  first_max p besti ->
  nth besti p 0 = best ->
  first_max (p ++ l) (argmax_from best besti (length p) l).
Proof.
  revert p best besti.
  induction l as [|c l IH]; intros p best besti Hfm Hbest; cbn.
  - now rewrite app_nil_r.
  - destruct Hfm as (Hi & Hmax & Hfirst).
    assert (Hlen : length (p ++ [c]) = S (length p))
      by (rewrite length_app; cbn; lia).
    replace (p ++ c :: l) with ((p ++ [c]) ++ l)
      by (now rewrite <- app_assoc).
    destruct (best <? c) eqn:Hc.
    + apply Z.ltb_lt in Hc.
      rewrite <- Hlen. apply IH.
      * repeat split; rewrite ?Hlen.
        -- lia.
        -- intros j Hj. rewrite (app_nth2 p [c] 0 (n := length p)) by lia.
           rewrite Nat.sub_diag. cbn.
           destruct (Nat.eq_dec j (length p)) as [->|Hne].
           ++ rewrite app_nth2 by lia. rewrite Nat.sub_diag. cbn. lia.
           ++ rewrite app_nth1 by lia.
              specialize (Hmax j ltac:(lia)). lia.
        -- intros j Hj. rewrite (app_nth2 p [c] 0 (n := length p)) by lia.
           rewrite Nat.sub_diag. cbn. rewrite app_nth1 by lia.
           specialize (Hmax j ltac:(lia)). lia.
      * rewrite app_nth2 by lia.
        now rewrite Nat.sub_diag.
    + apply Z.ltb_ge in Hc.
      rewrite <- Hlen. apply IH.
      * repeat split; rewrite ?Hlen.
        -- lia.
        -- intros j Hj. rewrite (app_nth1 p [c] 0 (n := besti)) by lia.
           destruct (Nat.eq_dec j (length p)) as [->|Hne].
           ++ rewrite app_nth2 by lia. rewrite Nat.sub_diag. cbn. lia.
           ++ rewrite app_nth1 by lia. apply Hmax. lia.
        -- intros j Hj. rewrite !app_nth1 by lia. now apply Hfirst.
      * now rewrite app_nth1 by lia.
Qed.

Lemma argmax_first_max (l : list Z) (i : nat) :
  argmax l = Some i -> first_max l i.
Proof.
  destruct l as [|c l]; cbn; [discriminate|].
  intros [= <-].
  apply (argmax_from_first_max l [c] c 0%nat); [|reflexivity].
  repeat split; cbn.
  - lia.
  - intros [|j] Hj; [lia|]. cbn in Hj. lia.
  - intros j Hj. lia.
Qed.

Lemma argmax_nonempty (l : list Z) :
  l <> [] -> exists i, argmax l = Some i.
Proof.
  destruct l; [congruence|]. intros _. cbn. eauto.
Qed.

(** The first maximum is one index: [first_max] names it. *)
Lemma first_max_unique (l : list Z) (i j : nat) :
  first_max l i -> first_max l j -> i = j.
Proof.
  intros (Hi & Hmi & Hfi) (Hj & Hmj & Hfj).
  destruct (Nat.lt_trichotomy i j) as [H|[H|H]]; [|assumption|].
  - specialize (Hfj i H). specialize (Hmi j Hj). lia.
  - specialize (Hfi j H). specialize (Hmj i Hi). lia.
Qed.

(** ** One tick of the step sweep *)

Ltac open_world w :=
  destruct w as [[xj yj zj delay ab slen vlen cur vcur counts]
                   cfg flt calls [mstate c] ts tr];
  cbn in *.

Ltac run_method :=
  unfold exec, run_slot, _optimisation_step, _volt_optimisation_step,
    _start_step_optimisation, _start_volt_optimisation, optimise_z,
    abort_optimisation, thread_lock, hwerror_handler, np_argmax,
    QTimer_singleShot, counter_module_state, counter_countdata_smoothed,
    call_hw, try_, bind, ret, raise, gets, modify, emit, upd_self, record;
  cbn.

Lemma optimisation_step_moves (w : World) :
  abort (self w) = false ->
  module_state (counter w) = locked ->
  current_step (self w) < sweep_length (self w) ->
  hw_fault w (hw_calls w) = None ->
  exec _optimisation_step w =
    mkWorld
      (set_current_step (current_step (self w) + 1)
         (set_sweep_counts
            (sweep_counts (self w) ++ [countdata_smoothed_last (counter w)])
            (self w)))
      (hw_config w) (hw_fault w) (S (hw_calls w)) (counter w)
      (timers w ++ [slot_optimisation_step])
      (trace w ++
         [sigCountDataUpdated;
          Hw (stage_hw.move_steps axis_z 1) None;
          singleShot (optimise_delay (self w)) slot_optimisation_step]).
Proof.
  open_world w. intros -> -> Hlt Hf.
  apply Z.ltb_lt in Hlt.
  run_method. rewrite Hlt. cbn. rewrite Hf. cbn.
  now rewrite <- !app_assoc.
Qed.

Lemma run_timers_app (cvs1 cvs2 : list CounterView) (w : World) :
  run_timers (cvs1 ++ cvs2) w = run_timers cvs2 (run_timers cvs1 w).
Proof. unfold run_timers. apply fold_left_app. Qed.

Lemma run_timers_cons (cv : CounterView) (cvs : list CounterView) (w : World) :
  run_timers (cv :: cvs) w = run_timers cvs (fire cv w).
Proof. reflexivity. Qed.

Lemma step_sampling_loop (cs : list Z) : forall w,
  timers w = [slot_optimisation_step] ->
  abort (self w) = false ->
  current_step (self w) + Z.of_nat (length cs) <= sweep_length (self w) ->
  (forall k, (k < length cs)%nat -> hw_fault w (hw_calls w + k) = None) ->
  let w' := run_timers (map counting cs) w in
  same_session w w' /\
  timers w' = [slot_optimisation_step] /\
  current_step (self w') = current_step (self w) + Z.of_nat (length cs) /\
  sweep_counts (self w') = sweep_counts (self w) ++ cs /\
  hw_calls w' = (hw_calls w + length cs)%nat /\
  trace w' =
    trace w ++ flat_map (fun _ => step_tick (optimise_delay (self w))) cs.
Proof.
  induction cs as [|c cs IH]; intros w Ht Hab Hcur Hf.
  - cbn. unfold same_session. rewrite !app_nil_r, Nat.add_0_r, Z.add_0_r.
    repeat split; auto.
  - cbn [map]. rewrite run_timers_cons. cbv zeta.
    cbn [length] in Hcur, Hf.
    assert (Hfire : fire (counting c) w =
                    exec _optimisation_step
                      (set_counter (counting c) (set_timers [] w)))
      by (unfold fire; now rewrite Ht).
    rewrite optimisation_step_moves in Hfire; cbn; auto; try lia.
    2:{ specialize (Hf 0%nat ltac:(lia)). now rewrite Nat.add_0_r in Hf. }
    cbn in Hfire. rewrite Hfire. clear Hfire.
    match goal with |- context [run_timers _ ?w1] => set (w1' := w1) end.
    destruct (IH w1') as ((Ha & Hsl & Hvl & Hd & Hflt) & Ht' & Hc' & Hs' & Hn' & Htr');
      subst w1'; cbn; auto; try lia.
    { intros k Hk. specialize (Hf (S k) ltac:(lia)).
      now replace (S (hw_calls w + k)) with (hw_calls w + S k)%nat by lia. }
    cbn in *. unfold same_session.
    rewrite Ha, Hsl, Hvl, Hd, Hflt, Ht', Hc', Hs', Hn', Htr'.
    rewrite <- !app_assoc. cbn.
    repeat split; auto; lia.
Qed.

Lemma optimisation_step_finishes (w : World) (i : nat) :
  abort (self w) = false ->
  module_state (counter w) = locked ->
  sweep_length (self w) <= current_step (self w) ->
  argmax (sweep_counts (self w) ++ [countdata_smoothed_last (counter w)])
    = Some i ->
  let w' := exec _optimisation_step w in
  let offset := 2 * sweep_length (self w) - Z.of_nat i in
  sweep_counts (self w') =
    sweep_counts (self w) ++ [countdata_smoothed_last (counter w)] /\
  timers w' =
    timers w ++
      (if 0 <? v_sweep_length (self w) then [slot_start_volt_optimisation]
       else []) /\
  trace w' =
    trace w ++
      [sigCountDataUpdated; log_debug (msg_optimum_steps offset)] ++
      corrective_move offset (hw_fault w (hw_calls w)) ++
      [step_sweep_end (optimise_delay (self w)) (v_sweep_length (self w))].
Proof.
  open_world w. intros -> -> Hge Harg.
  apply Z.ltb_ge in Hge.
  unfold corrective_move, step_sweep_end.
  run_method. rewrite Hge. cbn. rewrite Harg. cbn.
  destruct (0 <? 2 * slen - Z.of_nat i); cbn.
  - destruct (flt calls); cbn; destruct (0 <? vlen); cbn;
      rewrite <- ?app_assoc; cbn; rewrite ?app_nil_r; auto.
  - destruct (0 <? vlen); cbn; rewrite <- ?app_assoc; cbn;
      rewrite ?app_nil_r; auto.
Qed.

Lemma optimise_z_starts_step_sweep (w : World) (steps volts : Z) :
  0 < steps ->
  hw_fault w (hw_calls w) = None ->
  hw_fault w (S (hw_calls w)) = None ->
  let w' := exec (optimise_z steps volts) w in
  abort (self w') = false /\
  sweep_length (self w') = steps /\
  v_sweep_length (self w') = volts /\
  optimise_delay (self w') = optimise_delay (self w) /\
  hw_fault w' = hw_fault w /\
  timers w' = timers w ++ [slot_optimisation_step] /\
  current_step (self w') = - steps /\
  sweep_counts (self w') = [] /\
  hw_calls w' = S (S (hw_calls w)) /\
  trace w' = trace w ++ step_sweep_out (optimise_delay (self w)) steps.
Proof.
  open_world w. intros Hpos Hf0 Hf1.
  apply Z.ltb_lt in Hpos.
  unfold step_sweep_out. run_method. rewrite Hpos. run_method.
  rewrite Hf0. cbn. rewrite Hf1. cbn.
  rewrite <- !app_assoc. cbn. repeat split; auto.
Qed.

Lemma flat_map_const {A B} (l : list B) (xs : list A) :
  flat_map (fun _ => l) xs = concat (repeat l (length xs)).
Proof. induction xs as [|x xs IH]; cbn; [reflexivity|now rewrite IH]. Qed.

(** A sequence of [n + 1] samples is [n] samples and a last one. *)
Lemma samples_split (samples : list Z) (n : nat) :
  length samples = S n ->
  samples = removelast samples ++ [last samples 0] /\
  length (removelast samples) = n.
Proof.
  intros Hlen.
  assert (Hne : samples <> []) by (destruct samples; cbn in *; congruence).
  pose proof (app_removelast_last 0 Hne) as Hsplit.
  split; [assumption|].
  rewrite Hsplit in Hlen at 1. rewrite length_app in Hlen. cbn in Hlen. lia.
Qed.

(** The whole step sweep: [optimise_z], [2 * steps] ticks that move on and
    the tick that ends it. *)
Lemma step_sweep_completes (w : World) (steps volts : Z) (cs : list Z) (c : Z)
    (i : nat) :
  0 < steps ->
  timers w = [] ->
  length cs = Z.to_nat (2 * steps) ->
  (forall k, (k < Z.to_nat (2 * steps + 2))%nat ->
             hw_fault w (hw_calls w + k) = None) ->
  argmax (cs ++ [c]) = Some i ->
  let delay := optimise_delay (self w) in
  let offset := 2 * steps - Z.of_nat i in
  let w2 := run_timers (map counting cs) (exec (optimise_z steps volts) w) in
  let w3 := fire (counting c) w2 in
  sweep_counts (self w2) = cs /\
  trace w2 =
    trace w ++ step_sweep_out delay steps ++
      concat (repeat (step_tick delay) (Z.to_nat (2 * steps))) /\
  sweep_counts (self w3) = cs ++ [c] /\
  timers w3 = (if 0 <? volts then [slot_start_volt_optimisation] else []) /\
  trace w3 =
    trace w2 ++
      [sigCountDataUpdated; log_debug (msg_optimum_steps offset)] ++
      corrective_move offset
        (hw_fault w (hw_calls w + Z.to_nat (2 * steps + 2))) ++
      [step_sweep_end delay volts].
Proof.
  intros Hpos Ht Hlen Hf Harg delay offset.
  destruct (optimise_z_starts_step_sweep w steps volts Hpos)
    as (Hab & Hsl & Hvl & Hd & Hflt & Ht1 & Hcur & Hcs & Hn & Htr).
  { specialize (Hf 0%nat ltac:(lia)). now rewrite Nat.add_0_r in Hf. }
  { specialize (Hf 1%nat ltac:(lia)).
    now replace (hw_calls w + 1)%nat with (S (hw_calls w)) in Hf by lia. }
  set (w1 := exec (optimise_z steps volts) w) in *.
  rewrite Ht in Ht1. cbn in Ht1.
  destruct (step_sampling_loop cs w1)
    as ((Hab2 & Hsl2 & Hvl2 & Hd2 & Hflt2) & Ht2 & Hcur2 & Hcs2 & Hn2 & Htr2);
    auto.
  { rewrite Hcur, Hsl, Hlen. lia. }
  { intros k Hk. rewrite Hflt, Hn.
    specialize (Hf (S (S k)) ltac:(lia)).
    now replace (hw_calls w + S (S k))%nat with (S (S (hw_calls w)) + k)%nat
      in Hf by lia. }
  set (w2 := run_timers (map counting cs) w1) in *.
  cbv zeta.
  assert (Hfire : fire (counting c) w2 =
                  exec _optimisation_step
                    (set_counter (counting c) (set_timers [] w2)))
    by (unfold fire; now rewrite Ht2).
  destruct (optimisation_step_finishes
              (set_counter (counting c) (set_timers [] w2)) i)
    as (Hcs3 & Ht3 & Htr3); cbn.
  { now rewrite Hab2. }
  { reflexivity. }
  { rewrite Hsl2, Hcur2, Hcur, Hsl, Hlen. lia. }
  { rewrite Hcs2, Hcs. exact Harg. }
  cbn in Hcs3, Ht3, Htr3. rewrite <- Hfire in Hcs3, Ht3, Htr3.
  rewrite Hcs3, Ht3, Htr3, Hcs2, Hcs, Htr2, Htr, Hd2, Hd, Hvl2, Hvl, Hsl2, Hsl.
  rewrite Hflt2, Hflt, Hn2, Hn, Hlen, flat_map_const, Hlen.
  replace (S (S (hw_calls w)) + Z.to_nat (2 * steps))%nat
    with (hw_calls w + Z.to_nat (2 * steps + 2))%nat by lia.
  rewrite <- !app_assoc.
  repeat split; reflexivity.
Qed.

(** ** The step sweep as a whole *)

(** C1: a step sweep started by [optimise_z stepCount voltCount] with
    [stepCount > 0] that samples to the end (the counter is locked at each of
    its [2 * stepCount + 1] ticks, nobody aborts, the positioner accepts the
    moves of the sweep) records the samples, and the index [maxIndex] of the
    first occurrence of their maximum gives the return offset
    [2 * stepCount - maxIndex]: the last tick issues exactly one hardware
    call, a move of that many steps in the negative direction, when the
    offset is positive, and no hardware call at all when it is 0. *)
Theorem step_sweep_return_offset
    (w : World) (stepCount voltCount : Z) (samples : list Z) :
  0 < stepCount ->
  timers w = [] ->
  length samples = Z.to_nat (2 * stepCount + 1) ->
  (forall k, (k < Z.to_nat (2 * stepCount + 2))%nat ->
             hw_fault w (hw_calls w + k) = None) ->
  let delay := optimise_delay (self w) in
  let w' := run_timers (map counting samples)
              (exec (optimise_z stepCount voltCount) w) in
  exists maxIndex : nat,
    first_max samples maxIndex /\
    sweep_counts (self w') = samples /\
    let offset := 2 * stepCount - Z.of_nat maxIndex in
    exists relocation : list Event,
      trace w' =
        trace w ++ step_sweep_out delay stepCount ++
          concat (repeat (step_tick delay) (Z.to_nat (2 * stepCount))) ++
          [sigCountDataUpdated; log_debug (msg_optimum_steps offset)] ++
          relocation ++ [step_sweep_end delay voltCount] /\
      hw_calls_of relocation =
        (if 0 <? offset then [stage_hw.move_steps axis_z (- offset)]
         else []).
Proof.
  intros Hpos Ht Hlen Hf delay w'.
  destruct (samples_split samples (Z.to_nat (2 * stepCount))) as (Hsplit & Hlen').
  { rewrite Hlen. lia. }
  set (cs := removelast samples) in *. set (c := last samples 0) in *.
  destruct (argmax_nonempty (cs ++ [c])) as (i & Harg).
  { destruct cs; discriminate. }
  destruct (step_sweep_completes w stepCount voltCount cs c i
              Hpos Ht Hlen' Hf Harg) as (_ & Htr2 & Hcs3 & _ & Htr3).
  assert (Hw' : w' = fire (counting c)
                       (run_timers (map counting cs)
                          (exec (optimise_z stepCount voltCount) w))).
  { subst w'. rewrite Hsplit, map_app, run_timers_app. reflexivity. }
  exists i. rewrite Hw', Hcs3, Htr3, Htr2, <- Hsplit.
  split; [rewrite Hsplit; now apply argmax_first_max|].
  split; [reflexivity|].
  cbv zeta.
  exists (corrective_move (2 * stepCount - Z.of_nat i)
            (hw_fault w (hw_calls w + Z.to_nat (2 * stepCount + 2)))).
  split.
  - now rewrite <- !app_assoc.
  - unfold corrective_move.
    destruct (0 <? 2 * stepCount - Z.of_nat i); [|reflexivity].
    now destruct (hw_fault w _).
Qed.

(** C1 on a sweep of one step each way, samples 5, 7, 6. *)
Lemma step_sweep_return_offset_witness :
  let w := world0 no_fault in
  let w' := run_timers (map counting [5; 7; 6]) (exec (optimise_z 1 0) w) in
  exists maxIndex : nat,
    first_max [5; 7; 6] maxIndex /\
    sweep_counts (self w') = [5; 7; 6] /\
    let offset := 2 * 1 - Z.of_nat maxIndex in
    exists relocation : list Event,
      trace w' =
        trace w ++ step_sweep_out 100 1 ++
          concat (repeat (step_tick 100) (Z.to_nat (2 * 1))) ++
          [sigCountDataUpdated; log_debug (msg_optimum_steps offset)] ++
          relocation ++ [step_sweep_end 100 0] /\
      hw_calls_of relocation =
        (if 0 <? offset then [stage_hw.move_steps axis_z (- offset)]
         else []).
Proof.
  apply (step_sweep_return_offset (world0 no_fault) 1 0 [5; 7; 6]);
    [lia | reflexivity | reflexivity | intros; reflexivity].
Defined.

(** C9: a step sweep that samples to the end takes exactly
    [2 * stepCount + 1] ticks, one sample each: the sampling timer is still
    armed after every shorter run of ticks and is not armed after the last;
    so the index of the maximum is at most [2 * stepCount], the return offset
    [2 * stepCount - maxIndex] is never negative, and every move issued by
    the last tick has a negative step count. *)
Theorem step_sweep_sample_count
    (w : World) (stepCount voltCount : Z) (samples : list Z) :
  0 < stepCount ->
  timers w = [] ->
  length samples = Z.to_nat (2 * stepCount + 1) ->
  (forall k, (k < Z.to_nat (2 * stepCount + 2))%nat ->
             hw_fault w (hw_calls w + k) = None) ->
  let w1 := exec (optimise_z stepCount voltCount) w in
  let w' := run_timers (map counting samples) w1 in
  (forall j, (j < length samples)%nat ->
     timers (run_timers (map counting (firstn j samples)) w1)
       = [slot_optimisation_step]) /\
  ~ In slot_optimisation_step (timers w') /\
  Z.of_nat (length (sweep_counts (self w'))) = 2 * stepCount + 1 /\
  exists maxIndex : nat,
    argmax (sweep_counts (self w')) = Some maxIndex /\
    0 <= 2 * stepCount - Z.of_nat maxIndex /\
    exists completion : list Event,
      trace w' =
        trace (run_timers (map counting (removelast samples)) w1)
          ++ completion /\
      forall axis k fault,
        In (Hw (stage_hw.move_steps axis k) fault) completion -> k < 0.
Proof.
  intros Hpos Ht Hlen Hf w1 w'.
  destruct (samples_split samples (Z.to_nat (2 * stepCount))) as (Hsplit & Hlen').
  { rewrite Hlen. lia. }
  set (cs := removelast samples) in *. set (c := last samples 0) in *.
  destruct (argmax_nonempty (cs ++ [c])) as (i & Harg).
  { destruct cs; discriminate. }
  destruct (step_sweep_completes w stepCount voltCount cs c i
              Hpos Ht Hlen' Hf Harg) as (_ & _ & Hcs3 & Ht3 & Htr3).
  fold w1 in Hcs3, Ht3, Htr3.
  assert (Hw' : w' = fire (counting c) (run_timers (map counting cs) w1)).
  { subst w'. rewrite Hsplit, map_app, run_timers_app. reflexivity. }
  split.
  { intros j Hj.
    destruct (optimise_z_starts_step_sweep w stepCount voltCount Hpos)
      as (Hab & Hsl & _ & _ & Hflt & Ht1 & Hcur & _ & Hn & _).
    { specialize (Hf 0%nat ltac:(lia)). now rewrite Nat.add_0_r in Hf. }
    { specialize (Hf 1%nat ltac:(lia)).
      now replace (hw_calls w + 1)%nat with (S (hw_calls w)) in Hf by lia. }
    fold w1 in Hab, Hsl, Hflt, Ht1, Hcur, Hn.
    rewrite Ht in Ht1. cbn in Ht1.
    assert (Hj' : length (firstn j samples) = j)
      by (rewrite length_firstn; lia).
    destruct (step_sampling_loop (firstn j samples) w1)
      as (_ & Htj & _); auto.
    - rewrite Hcur, Hsl, Hj'. lia.
    - intros k Hk. rewrite Hflt, Hn.
      specialize (Hf (S (S k)) ltac:(lia)).
      now replace (hw_calls w + S (S k))%nat
        with (S (S (hw_calls w)) + k)%nat in Hf by lia. }
  rewrite Hw', Hcs3, Ht3, Htr3.
  split.
  { destruct (0 <? voltCount); cbn; intuition discriminate. }
  split.
  { rewrite length_app, Hlen'. cbn. lia. }
  exists i. split; [assumption|].
  apply argmax_first_max in Harg. destruct Harg as (Hi & _).
  rewrite length_app, Hlen' in Hi. cbn in Hi.
  split; [lia|].
  eexists. split; [reflexivity|].
  intros axis k fault Hin.
  unfold corrective_move, step_sweep_end in Hin.
  destruct (0 <? 2 * stepCount - Z.of_nat i) eqn:Hoff;
    destruct (0 <? voltCount); cbn in Hin;
    repeat (destruct Hin as [Hin|Hin]; try discriminate Hin);
    try contradiction.
  all: try (destruct (hw_fault w _); cbn in Hin;
            repeat (destruct Hin as [Hin|Hin]; try discriminate Hin);
            try contradiction).
  all: apply Z.ltb_lt in Hoff; injection Hin as _ Hk; lia.
Qed.

(** C9 on the same sweep. *)
Lemma step_sweep_sample_count_witness :
  let w1 := exec (optimise_z 1 0) (world0 no_fault) in
  let w' := run_timers (map counting [5; 7; 6]) w1 in
  (forall j, (j < 3)%nat ->
     timers (run_timers (map counting (firstn j [5; 7; 6])) w1)
       = [slot_optimisation_step]) /\
  ~ In slot_optimisation_step (timers w') /\
  Z.of_nat (length (sweep_counts (self w'))) = 2 * 1 + 1 /\
  exists maxIndex : nat,
    argmax (sweep_counts (self w')) = Some maxIndex /\
    0 <= 2 * 1 - Z.of_nat maxIndex /\
    exists completion : list Event,
      trace w' =
        trace (run_timers (map counting (removelast [5; 7; 6])) w1)
          ++ completion /\
      forall axis k fault,
        In (Hw (stage_hw.move_steps axis k) fault) completion -> k < 0.
Proof.
  apply (step_sweep_sample_count (world0 no_fault) 1 0 [5; 7; 6]);
    [lia | reflexivity | reflexivity | intros; reflexivity].
Defined.

(** ** The volt sweep *)

Lemma volt_optimisation_step_moves (w : World) :
  abort (self w) = false ->
  module_state (counter w) = locked ->
  current_v_step (self w) < v_sweep_length (self w) ->
  hw_fault w (hw_calls w) = None ->
  exec _volt_optimisation_step w =
    mkWorld
      (set_current_v_step (current_v_step (self w) + 1)
         (set_sweep_counts
            (sweep_counts (self w) ++ [countdata_smoothed_last (counter w)])
            (self w)))
      (store_config axis_z [(offset_voltage, current_v_step (self w))]
         (hw_config w))
      (hw_fault w) (S (hw_calls w)) (counter w)
      (timers w ++ [slot_volt_optimisation_step])
      (trace w ++ volt_tick (optimise_delay (self w))
                    (current_v_step (self w))).
Proof.
  open_world w. intros -> -> Hlt Hf.
  apply Z.ltb_lt in Hlt.
  unfold volt_tick. run_method. rewrite Hlt. cbn. rewrite Hf. cbn.
  now rewrite <- !app_assoc.
Qed.

Lemma volt_sampling_loop (cs : list Z) : forall w,
  timers w = [slot_volt_optimisation_step] ->
  abort (self w) = false ->
  current_v_step (self w) + Z.of_nat (length cs) <= v_sweep_length (self w) ->
  (forall k, (k < length cs)%nat -> hw_fault w (hw_calls w + k) = None) ->
  let w' := run_timers (map counting cs) w in
  same_session w w' /\
  timers w' = [slot_volt_optimisation_step] /\
  current_v_step (self w') = current_v_step (self w) + Z.of_nat (length cs) /\
  sweep_counts (self w') = sweep_counts (self w) ++ cs /\
  hw_calls w' = (hw_calls w + length cs)%nat /\
  trace w' =
    trace w ++
      flat_map (volt_tick (optimise_delay (self w)))
        (cursors (current_v_step (self w)) (length cs)).
Proof.
  induction cs as [|c cs IH]; intros w Ht Hab Hcur Hf.
  - cbn. unfold same_session. rewrite !app_nil_r, Nat.add_0_r, Z.add_0_r.
    repeat split; auto.
  - cbn [map]. rewrite run_timers_cons. cbv zeta.
    cbn [length] in Hcur, Hf.
    assert (Hfire : fire (counting c) w =
                    exec _volt_optimisation_step
                      (set_counter (counting c) (set_timers [] w)))
      by (unfold fire; now rewrite Ht).
    rewrite volt_optimisation_step_moves in Hfire; cbn; auto; try lia.
    2:{ specialize (Hf 0%nat ltac:(lia)). now rewrite Nat.add_0_r in Hf. }
    cbn in Hfire. rewrite Hfire. clear Hfire.
    match goal with |- context [run_timers _ ?w1] => set (w1' := w1) end.
    destruct (IH w1')
      as ((Ha & Hsl & Hvl & Hd & Hflt) & Ht' & Hc' & Hs' & Hn' & Htr');
      subst w1'; cbn; auto; try lia.
    { intros k Hk. specialize (Hf (S k) ltac:(lia)).
      now replace (S (hw_calls w + k)) with (hw_calls w + S k)%nat by lia. }
    cbn in *. unfold same_session.
    rewrite Ha, Hsl, Hvl, Hd, Hflt, Ht', Hc', Hs', Hn', Htr'.
    rewrite <- !app_assoc. cbn.
    repeat split; auto; lia.
Qed.

Lemma volt_optimisation_step_finishes (w : World) (i : nat) :
  abort (self w) = false ->
  module_state (counter w) = locked ->
  v_sweep_length (self w) <= current_v_step (self w) ->
  argmax (sweep_counts (self w) ++ [countdata_smoothed_last (counter w)])
    = Some i ->
  let w' := exec _volt_optimisation_step w in
  sweep_counts (self w') =
    sweep_counts (self w) ++ [countdata_smoothed_last (counter w)] /\
  timers w' = timers w /\
  trace w' =
    trace w ++ volt_sweep_end (Z.of_nat i) (hw_fault w (hw_calls w)).
Proof.
  open_world w. intros -> -> Hge Harg.
  apply Z.ltb_ge in Hge.
  unfold volt_sweep_end.
  run_method. rewrite Hge. cbn. rewrite Harg. cbn.
  destruct (flt calls); cbn; rewrite <- ?app_assoc; cbn; auto.
Qed.

Lemma start_volt_optimisation_runs (w : World) :
  hw_fault w (hw_calls w) = None ->
  let w' := exec _start_volt_optimisation w in
  same_session w w' /\
  timers w' = timers w ++ [slot_volt_optimisation_step] /\
  current_v_step (self w') = 0 /\
  sweep_counts (self w') = [] /\
  hw_calls w' = S (hw_calls w) /\
  trace w' =
    trace w ++
      volt_sweep_out (optimise_delay (self w)) (v_sweep_length (self w)).
Proof.
  open_world w. intros Hf.
  unfold volt_sweep_out, same_session. run_method. rewrite Hf. cbn.
  rewrite <- !app_assoc. cbn. repeat split; auto.
Qed.

(** The whole volt sweep from [_start_volt_optimisation] on: [volts] ticks
    that move on and the tick that ends it. *)
Lemma volt_sweep_completes (w : World) (volts : Z) (cs : list Z) (c : Z)
    (i : nat) :
  0 < volts ->
  abort (self w) = false ->
  v_sweep_length (self w) = volts ->
  timers w = [] ->
  length cs = Z.to_nat volts ->
  (forall k, (k < Z.to_nat (volts + 1))%nat ->
             hw_fault w (hw_calls w + k) = None) ->
  argmax (cs ++ [c]) = Some i ->
  let delay := optimise_delay (self w) in
  let w2 := run_timers (map counting cs) (exec _start_volt_optimisation w) in
  let w3 := fire (counting c) w2 in
  sweep_counts (self w2) = cs /\
  timers w2 = [slot_volt_optimisation_step] /\
  trace w2 =
    trace w ++ volt_sweep_out delay volts ++
      flat_map (volt_tick delay) (cursors 0 (Z.to_nat volts)) /\
  sweep_counts (self w3) = cs ++ [c] /\
  timers w3 = [] /\
  trace w3 =
    trace w2 ++
      volt_sweep_end (Z.of_nat i)
        (hw_fault w (hw_calls w + Z.to_nat (volts + 1))).
Proof.
  intros Hpos Hab Hv Ht Hlen Hf Harg delay.
  destruct (start_volt_optimisation_runs w)
    as ((Hab1 & Hsl & Hvl & Hd & Hflt) & Ht1 & Hcur & Hcs & Hn & Htr).
  { specialize (Hf 0%nat ltac:(lia)). now rewrite Nat.add_0_r in Hf. }
  set (w1 := exec _start_volt_optimisation w) in *.
  rewrite Ht in Ht1. cbn in Ht1.
  destruct (volt_sampling_loop cs w1)
    as ((Hab2 & Hsl2 & Hvl2 & Hd2 & Hflt2) & Ht2 & Hcur2 & Hcs2 & Hn2 & Htr2);
    auto.
  { congruence. }
  { rewrite Hcur, Hvl, Hv, Hlen. lia. }
  { intros k Hk. rewrite Hflt, Hn.
    specialize (Hf (S k) ltac:(lia)).
    now replace (hw_calls w + S k)%nat with (S (hw_calls w) + k)%nat
      in Hf by lia. }
  set (w2 := run_timers (map counting cs) w1) in *.
  cbv zeta.
  assert (Hfire : fire (counting c) w2 =
                  exec _volt_optimisation_step
                    (set_counter (counting c) (set_timers [] w2)))
    by (unfold fire; now rewrite Ht2).
  destruct (volt_optimisation_step_finishes
              (set_counter (counting c) (set_timers [] w2)) i)
    as (Hcs3 & Ht3 & Htr3); cbn.
  { congruence. }
  { reflexivity. }
  { rewrite Hvl2, Hcur2, Hcur, Hvl, Hv, Hlen. lia. }
  { rewrite Hcs2, Hcs. exact Harg. }
  cbn in Hcs3, Ht3, Htr3. rewrite <- Hfire in Hcs3, Ht3, Htr3.
  rewrite Hcs3, Ht3, Htr3, Hcs2, Hcs, Ht2, Htr2, Htr, Hd, Hv, Hcur.
  rewrite Hflt2, Hflt, Hn2, Hn, Hlen.
  replace (S (hw_calls w) + Z.to_nat volts)%nat
    with (hw_calls w + Z.to_nat (volts + 1))%nat by lia.
  rewrite <- !app_assoc.
  repeat split; reflexivity.
Qed.

Lemma cursors_seq (n : nat) : forall start,
  cursors start n = map (fun k => start + Z.of_nat k) (seq 0 n).
Proof.
  induction n as [|n IH]; intros start; cbn [cursors seq map].
  - reflexivity.
  - rewrite IH, <- seq_shift, map_map. f_equal; [lia|].
    apply map_ext. intros k. lia.
Qed.

Lemma offset_writes_app (axis : Axis) (tr1 tr2 : list Event) :
  offset_writes axis (tr1 ++ tr2) =
  offset_writes axis tr1 ++ offset_writes axis tr2.
Proof. unfold offset_writes. apply flat_map_app. Qed.

Lemma offset_writes_volt_ticks (delay : Z) (cs : list Z) :
  offset_writes axis_z (flat_map (volt_tick delay) cs) = cs.
Proof.
  induction cs as [|c cs IH]; [reflexivity|].
  cbn [flat_map]. rewrite offset_writes_app, IH. reflexivity.
Qed.

Lemma offset_writes_volt_sweep_out (delay volts : Z) :
  offset_writes axis_z (volt_sweep_out delay volts) = [].
Proof. reflexivity. Qed.

Lemma offset_writes_volt_sweep_end (i : Z) (fault : option Z) :
  offset_writes axis_z (volt_sweep_end i fault) = [i].
Proof. now destruct fault. Qed.

Lemma argmax_from_cursors (n : nat) : forall best besti i start,
  best < start ->
  argmax_from best besti i (cursors start n) =
    match n with O => besti | S n' => (i + n')%nat end.
Proof.
  induction n as [|n IH]; intros best besti i start Hlt; cbn [cursors argmax_from].
  - reflexivity.
  - apply Z.ltb_lt in Hlt. rewrite Hlt.
    rewrite (IH start i (S i) (start + 1)) by lia.
    destruct n; lia.
Qed.

Lemma argmax_cursors (n : nat) (start : Z) :
  argmax (cursors start (S n)) = Some n.
Proof.
  cbn [cursors argmax]. rewrite argmax_from_cursors by lia.
  destruct n; reflexivity.
Qed.

Lemma length_cursors (n : nat) : forall start, length (cursors start n) = n.
Proof. induction n; intros; cbn; [reflexivity|now rewrite IHn]. Qed.

(** [optimise_z] with no step sweep and a volt sweep asked for sets the
    session up and goes straight to [_start_volt_optimisation]. *)
Lemma optimise_z_starts_volt_sweep (w : World) (steps volts : Z) :
  steps <= 0 ->
  0 < volts ->
  exec (optimise_z steps volts) w =
  exec _start_volt_optimisation
    (upd_self (fun s => set_abort false
                          (set_v_sweep_length volts
                             (set_sweep_length steps s))) w).
Proof.
  intros Hs Hv. apply Z.ltb_ge in Hs. apply Z.ltb_lt in Hv.
  unfold exec, optimise_z, bind, modify, upd_self. cbn.
  now rewrite Hs, Hv.
Qed.

(** C2: a volt sweep that samples to the end (the counter is locked at each
    of its [voltCount + 1] ticks, nobody aborts, the positioner accepts the
    calls of the sweep) writes to the offset voltage of z exactly the cursor
    values 0, 1, ..., [voltCount - 1], in this order and one per tick, and
    then once more: the index of the first occurrence of the maximum of the
    recorded samples. *)
Theorem volt_sweep_offset_voltages
    (w : World) (voltCount : Z) (samples : list Z) :
  0 < voltCount ->
  abort (self w) = false ->
  v_sweep_length (self w) = voltCount ->
  timers w = [] ->
  length samples = Z.to_nat (voltCount + 1) ->
  (forall k, (k < Z.to_nat (voltCount + 1))%nat ->
             hw_fault w (hw_calls w + k) = None) ->
  let delay := optimise_delay (self w) in
  let w' := run_timers (map counting samples)
              (exec _start_volt_optimisation w) in
  exists (maxIndex : nat) (fault : option Z),
    first_max samples maxIndex /\
    sweep_counts (self w') = samples /\
    let sweep :=
      volt_sweep_out delay voltCount ++
      flat_map (volt_tick delay)
        (map Z.of_nat (seq 0 (Z.to_nat voltCount))) ++
      volt_sweep_end (Z.of_nat maxIndex) fault in
    trace w' = trace w ++ sweep /\
    offset_writes axis_z sweep =
      map Z.of_nat (seq 0 (Z.to_nat voltCount)) ++ [Z.of_nat maxIndex].
Proof.
  intros Hpos Hab Hv Ht Hlen Hf delay w'.
  destruct (samples_split samples (Z.to_nat voltCount)) as (Hsplit & Hlen').
  { rewrite Hlen. lia. }
  set (cs := removelast samples) in *. set (c := last samples 0) in *.
  destruct (argmax_nonempty (cs ++ [c])) as (i & Harg).
  { destruct cs; discriminate. }
  destruct (volt_sweep_completes w voltCount cs c i
              Hpos Hab Hv Ht Hlen' Hf Harg)
    as (_ & _ & Htr2 & Hcs3 & _ & Htr3).
  assert (Hw' : w' = fire (counting c)
                       (run_timers (map counting cs)
                          (exec _start_volt_optimisation w))).
  { subst w'. rewrite Hsplit, map_app, run_timers_app. reflexivity. }
  exists i, (hw_fault w (hw_calls w + Z.to_nat (voltCount + 1))).
  rewrite Hw', Hcs3, Htr3, Htr2, <- Hsplit.
  split; [rewrite Hsplit; now apply argmax_first_max|].
  split; [reflexivity|].
  cbv zeta. rewrite cursors_seq. cbn [Z.add].
  replace (map (fun k => 0 + Z.of_nat k) (seq 0 (Z.to_nat voltCount)))
    with (map Z.of_nat (seq 0 (Z.to_nat voltCount)))
    by (apply map_ext; intros; lia).
  split.
  - now rewrite <- !app_assoc.
  - rewrite !offset_writes_app, offset_writes_volt_ticks,
      offset_writes_volt_sweep_end.
    reflexivity.
Qed.

(** C2 on [optimise_z 0 3], samples 5, 7, 6, 7. *)
Lemma volt_sweep_offset_voltages_witness :
  let w := exec (optimise_z 0 3) (world0 no_fault) in
  let w' := run_timers (map counting [5; 7; 6; 7]) w in
  exists (maxIndex : nat) (fault : option Z),
    first_max [5; 7; 6; 7] maxIndex /\
    sweep_counts (self w') = [5; 7; 6; 7] /\
    let sweep :=
      volt_sweep_out 100 3 ++
      flat_map (volt_tick 100) (map Z.of_nat (seq 0 (Z.to_nat 3))) ++
      volt_sweep_end (Z.of_nat maxIndex) fault in
    trace w' = [] ++ sweep /\
    offset_writes axis_z sweep =
      map Z.of_nat (seq 0 (Z.to_nat 3)) ++ [Z.of_nat maxIndex].
Proof.
  rewrite (optimise_z_starts_volt_sweep (world0 no_fault) 0 3) by lia.
  apply (volt_sweep_offset_voltages
           (upd_self (fun s => set_abort false
                                 (set_v_sweep_length 3
                                    (set_sweep_length 0 s)))
              (world0 no_fault)) 3 [5; 7; 6; 7]);
    [lia | reflexivity | reflexivity | reflexivity | reflexivity
     | intros; reflexivity].
Defined.

(** C10: a volt sweep that samples to the end takes exactly [voltCount + 1]
    ticks, one sample each, the sample of a tick being stored before the
    tick writes its cursor value: after [j] ticks the samples are the first
    [j] and the offsets written are 0, ..., [j - 1].  So the index of the
    maximum ranges up to [voltCount], and it does reach it (on samples that
    keep rising): the last write then sets the offset voltage to [voltCount],
    one more than the largest value written while sampling. *)
Theorem volt_sweep_sample_count (w : World) (voltCount : Z) :
  0 < voltCount ->
  abort (self w) = false ->
  v_sweep_length (self w) = voltCount ->
  timers w = [] ->
  (forall k, (k < Z.to_nat (voltCount + 1))%nat ->
             hw_fault w (hw_calls w + k) = None) ->
  let w1 := exec _start_volt_optimisation w in
  let written tr := offset_writes axis_z (skipn (length (trace w)) tr) in
  (forall samples : list Z,
     length samples = Z.to_nat (voltCount + 1) ->
     let w' := run_timers (map counting samples) w1 in
     (forall j, (j < length samples)%nat ->
        let wj := run_timers (map counting (firstn j samples)) w1 in
        timers wj = [slot_volt_optimisation_step] /\
        sweep_counts (self wj) = firstn j samples /\
        written (trace wj) = map Z.of_nat (seq 0 j)) /\
     timers w' = [] /\
     Z.of_nat (length (sweep_counts (self w'))) = voltCount + 1 /\
     exists maxIndex : nat,
       argmax (sweep_counts (self w')) = Some maxIndex /\
       Z.of_nat maxIndex <= voltCount /\
       written (trace w') =
         map Z.of_nat (seq 0 (Z.to_nat voltCount)) ++ [Z.of_nat maxIndex]) /\
  (exists samples : list Z,
     length samples = Z.to_nat (voltCount + 1) /\
     let w' := run_timers (map counting samples) w1 in
     argmax (sweep_counts (self w')) = Some (Z.to_nat voltCount) /\
     written (trace w') =
       map Z.of_nat (seq 0 (Z.to_nat voltCount)) ++ [voltCount]).
Proof.
  intros Hpos Hab Hv Ht Hf w1 written.
  assert (Hwritten : forall evs, written (trace w ++ evs) = offset_writes axis_z evs).
  { intros evs. unfold written.
    rewrite skipn_app, skipn_all, Nat.sub_diag. reflexivity. }
  assert (Hall : forall samples : list Z,
     length samples = Z.to_nat (voltCount + 1) ->
     let w' := run_timers (map counting samples) w1 in
     sweep_counts (self w') = samples /\
     timers w' = [] /\
     exists maxIndex : nat,
       argmax samples = Some maxIndex /\
       written (trace w') =
         map Z.of_nat (seq 0 (Z.to_nat voltCount)) ++ [Z.of_nat maxIndex]).
  { intros samples Hlen w'.
    destruct (samples_split samples (Z.to_nat voltCount)) as (Hsplit & Hlen').
    { rewrite Hlen. lia. }
    set (cs := removelast samples) in *. set (c := last samples 0) in *.
    destruct (argmax_nonempty (cs ++ [c])) as (i & Harg).
    { destruct cs; discriminate. }
    destruct (volt_sweep_completes w voltCount cs c i
                Hpos Hab Hv Ht Hlen' Hf Harg)
      as (_ & _ & Htr2 & Hcs3 & Ht3 & Htr3).
    fold w1 in Htr2, Hcs3, Ht3, Htr3.
    assert (Hw' : w' = fire (counting c) (run_timers (map counting cs) w1)).
    { subst w'. rewrite Hsplit, map_app, run_timers_app. reflexivity. }
    rewrite Hw', Hcs3, Ht3, Htr3, Htr2, <- Hsplit.
    split; [reflexivity|]. split; [reflexivity|].
    exists i. split; [now rewrite Hsplit|].
    rewrite <- !app_assoc, Hwritten, !offset_writes_app,
      offset_writes_volt_sweep_out, offset_writes_volt_ticks,
      offset_writes_volt_sweep_end, cursors_seq.
    reflexivity. }
  split.
  - intros samples Hlen w'.
    destruct (Hall samples Hlen) as (Hcs & Htm & i & Harg & Hwr).
    fold w' in Hcs, Htm, Hwr.
    split.
    { intros j Hj wj.
      destruct (start_volt_optimisation_runs w)
        as ((Hab1 & _ & Hvl & Hd & Hflt) & Ht1 & Hcur & Hcs1 & Hn & Htr).
      { specialize (Hf 0%nat ltac:(lia)). now rewrite Nat.add_0_r in Hf. }
      fold w1 in Hab1, Hvl, Hd, Hflt, Ht1, Hcur, Hcs1, Hn, Htr.
      rewrite Ht in Ht1. cbn in Ht1.
      assert (Hj' : length (firstn j samples) = j)
        by (rewrite length_firstn; lia).
      destruct (volt_sampling_loop (firstn j samples) w1)
        as (_ & Htj & _ & Hcsj & _ & Htrj); auto.
      - congruence.
      - rewrite Hcur, Hvl, Hv, Hj'. lia.
      - intros k Hk. rewrite Hflt, Hn.
        specialize (Hf (S k) ltac:(lia)).
        now replace (hw_calls w + S k)%nat with (S (hw_calls w) + k)%nat
          in Hf by lia.
      - fold wj in Htj, Hcsj, Htrj.
        rewrite Htj, Hcsj, Hcs1, Htrj, Htr, Hj', Hcur.
        split; [reflexivity|]. split; [reflexivity|].
        rewrite <- !app_assoc, Hwritten, offset_writes_app,
          offset_writes_volt_sweep_out, offset_writes_volt_ticks, cursors_seq.
        reflexivity. }
    rewrite Hcs, Htm, Hwr. split; [reflexivity|].
    split; [rewrite Hlen; lia|].
    exists i. split; [assumption|]. split; [|reflexivity].
    apply argmax_first_max in Harg. destruct Harg as (Hi & _). lia.
  - exists (cursors 0 (Z.to_nat (voltCount + 1))).
    assert (Hlen : length (cursors 0 (Z.to_nat (voltCount + 1)))
                   = Z.to_nat (voltCount + 1)) by apply length_cursors.
    split; [assumption|]. intros w'.
    destruct (Hall _ Hlen) as (Hcs & _ & i & Harg & Hwr).
    fold w' in Hcs, Hwr. rewrite Hcs, Hwr.
    replace (Z.to_nat (voltCount + 1)) with (S (Z.to_nat voltCount)) in Harg |- * by lia.
    rewrite argmax_cursors in Harg |- *. injection Harg as <-.
    split; [reflexivity|]. now rewrite Z2Nat.id by lia.
Qed.

(** C10 on a volt sweep of length 3. *)
Lemma volt_sweep_sample_count_witness :
  let w := upd_self (fun s => set_abort false
                                (set_v_sweep_length 3 (set_sweep_length 0 s)))
             (world0 no_fault) in
  let w1 := exec _start_volt_optimisation w in
  let written tr := offset_writes axis_z (skipn (length (trace w)) tr) in
  (forall samples : list Z,
     length samples = Z.to_nat (3 + 1) ->
     let w' := run_timers (map counting samples) w1 in
     (forall j, (j < length samples)%nat ->
        let wj := run_timers (map counting (firstn j samples)) w1 in
        timers wj = [slot_volt_optimisation_step] /\
        sweep_counts (self wj) = firstn j samples /\
        written (trace wj) = map Z.of_nat (seq 0 j)) /\
     timers w' = [] /\
     Z.of_nat (length (sweep_counts (self w'))) = 3 + 1 /\
     exists maxIndex : nat,
       argmax (sweep_counts (self w')) = Some maxIndex /\
       Z.of_nat maxIndex <= 3 /\
       written (trace w') =
         map Z.of_nat (seq 0 (Z.to_nat 3)) ++ [Z.of_nat maxIndex]) /\
  (exists samples : list Z,
     length samples = Z.to_nat (3 + 1) /\
     let w' := run_timers (map counting samples) w1 in
     argmax (sweep_counts (self w')) = Some (Z.to_nat 3) /\
     written (trace w') = map Z.of_nat (seq 0 (Z.to_nat 3)) ++ [3]).
Proof.
  apply (volt_sweep_sample_count
           (upd_self (fun s => set_abort false
                                 (set_v_sweep_length 3
                                    (set_sweep_length 0 s)))
              (world0 no_fault)) 3);
    [lia | reflexivity | reflexivity | reflexivity | intros; reflexivity].
Defined.

(** ** Abort *)

(** A sampling tick that finds the abort flag up stops the counter and does
    nothing else: no hardware call, no timer, no signal. *)
Lemma abort_stops_sampling (w : World) (s : Slot) :
  abort (self w) = true ->
  s = slot_optimisation_step \/ s = slot_volt_optimisation_step ->
  exec (run_slot s) w = record stopCount w.
Proof.
  open_world w. intros -> [-> | ->]; reflexivity.
Qed.

(** C3, on the code: [optimise_z 1 20] runs its step sweep to the end on
    the samples 5, 7, 6 and schedules the volt sweep; [abort_optimisation]
    is called before that timer expires.  The slot
    [_start_volt_optimisation] does not look at the abort flag: it moves the
    stage two steps back and starts the counter; only the sampling tick after
    it stops the counter and ends the run. *)
Theorem abort_between_phases_still_moves :
  let w1 := run_timers (map counting [5; 7; 6])
              (exec (optimise_z 1 20) (world0 no_fault)) in
  let w2 := exec abort_optimisation w1 in
  let w3 := fire (counting 4) w2 in
  let w4 := fire (counting 4) w3 in
  timers w1 = [slot_start_volt_optimisation] /\
  abort (self w2) = true /\
  trace w3 =
    trace w2 ++
      [log_debug (msg_moving_back 2);
       Hw (stage_hw.move_steps axis_z (-2)) None;
       startCount;
       singleShot 400 slot_volt_optimisation_step] /\
  trace w4 = trace w3 ++ [stopCount] /\
  timers w4 = [].
Proof. vm_compute. repeat split; reflexivity. Qed.

(** ** The counter found stopped *)

(** The step loop logs the anomaly and ends. *)
Lemma optimisation_step_counter_stopped (w : World) :
  abort (self w) = false ->
  module_state (counter w) <> locked ->
  exec _optimisation_step w = record (log_error msg_counter_stopped) w.
Proof.
  open_world w. intros -> Hst.
  destruct mstate; try congruence; reflexivity.
Qed.

(** The volt loop ends as well, and says nothing. *)
Lemma volt_optimisation_step_counter_stopped (w : World) :
  abort (self w) = false ->
  module_state (counter w) <> locked ->
  exec _volt_optimisation_step w = w.
Proof.
  open_world w. intros -> Hst.
  destruct mstate; try congruence; reflexivity.
Qed.

(** C4, on the code: the same anomaly (the counter is idle when the tick
    comes) in the two loops.  Neither relocates nor re-arms its timer, but
    only the step loop logs an error; the volt loop leaves no trace at all. *)
Theorem counter_stopped_volt_loop_is_silent :
  let cv := mkCounterView idle 0 in
  let ws := exec (optimise_z 1 0) (world0 no_fault) in
  let wv := exec (optimise_z 0 20) (world0 no_fault) in
  timers ws = [slot_optimisation_step] /\
  trace (fire cv ws) = trace ws ++ [log_error msg_counter_stopped] /\
  timers (fire cv ws) = [] /\
  timers wv = [slot_volt_optimisation_step] /\
  trace (fire cv wv) = trace wv /\
  timers (fire cv wv) = [].
Proof. vm_compute. repeat split; reflexivity. Qed.

(** ** Offset voltage and motion *)

(** [start_jog] and [step] never move an axis that has an offset voltage,
    whatever the positioner held before and whichever call faults. *)
Lemma start_jog_zeroes_first (w : World) (axis : Axis) (direction : bool) :
  exists evs,
    trace (exec (start_jog axis direction) w) = trace w ++ evs /\
    motion_with_offset (hw_config w) evs = [].
Proof.
  destruct w as [s cfg flt calls cv ts tr].
  unfold start_jog. run_method.
  destruct (flt calls) eqn:Hf0; cbn.
  - eexists. rewrite <- app_assoc. split; [reflexivity|reflexivity].
  - destruct (flt (S calls)) eqn:Hf1; cbn.
    + eexists. rewrite <- !app_assoc. split; [reflexivity|].
      cbn. destruct axis; reflexivity.
    + eexists. rewrite <- !app_assoc. split; [reflexivity|].
      cbn. destruct axis; reflexivity.
Qed.

Lemma step_zeroes_first (w : World) (axis : Axis) (steps : Z) :
  exists evs,
    trace (exec (step axis steps) w) = trace w ++ evs /\
    motion_with_offset (hw_config w) evs = [].
Proof.
  destruct w as [s cfg flt calls cv ts tr].
  unfold step. run_method.
  destruct (flt calls) eqn:Hf0; cbn.
  - eexists. rewrite <- app_assoc. split; [reflexivity|reflexivity].
  - destruct (flt (S calls)) eqn:Hf1; cbn.
    + eexists. rewrite <- !app_assoc. split; [reflexivity|].
      cbn. destruct axis; reflexivity.
    + eexists. rewrite <- !app_assoc. split; [reflexivity|].
      cbn. destruct axis; reflexivity.
Qed.

(** C5, on the code: a first volt sweep [optimise_z 0 4] on the samples
    1, 2, 3, 9, 4 ends with the offset voltage of z at 3, its optimum.  A
    second [optimise_z 0 4] then starts with a move of z, one step back,
    without zeroing that offset first: z is stepped while its offset voltage
    is 3. *)
Theorem volt_sweep_moves_with_offset :
  let w1 := run_timers (map counting [1; 2; 3; 9; 4])
              (exec (optimise_z 0 4) (world0 no_fault)) in
  let w2 := exec (optimise_z 0 4) w1 in
  hw_config w1 axis_z offset_voltage = 3 /\
  trace w2 =
    trace w1 ++
      [log_debug (msg_moving_back 1);
       Hw (stage_hw.move_steps axis_z (-1)) None;
       startCount;
       singleShot 400 slot_volt_optimisation_step] /\
  motion_with_offset (hw_config w1) (skipn (length (trace w1)) (trace w2)) =
    [stage_hw.move_steps axis_z (-1)].
Proof. vm_compute. repeat split; reflexivity. Qed.

(** ** Faults at the command gate *)

(** C6, counterexample: the positioner faults on the first query of
    [get_axis_params]; the call returns [None] and raises nothing. *)
Lemma get_axis_params_fault_not_raised :
  let w := world0 (fun k => if Nat.eqb k 0 then Some 7 else None) in
  hw_fault w (hw_calls w) = Some 7 /\
  fst (get_axis_params axis_x w) = Return None /\
  fst (get_axis_params axis_x w) <> Raise (PositionerError 7).
Proof. vm_compute. repeat split; discriminate. Qed.

(** C6, as the code has it: when a query of [get_axis_params] faults (the
    first, or the second after the first went through), the fault is logged
    and the call returns normally, with [None]; [set_axis_params] does the
    same with a fault of its one call. *)
Theorem get_axis_params_swallows_fault
    (w : World) (axis : Axis) (volt freq err : Z) :
  hw_fault w (hw_calls w) = Some err \/
  (hw_fault w (hw_calls w) = None /\ hw_fault w (S (hw_calls w)) = Some err) ->
  fst (get_axis_params axis w) = Return None /\
  (exists queries,
     trace (exec (get_axis_params axis) w) =
       trace w ++ queries ++ [log_error (msg_err err)] /\
     Forall (fun e => exists key fault,
                        e = Hw (stage_hw.get_axis_config axis key) fault)
       queries) /\
  (hw_fault w (hw_calls w) = Some err ->
   fst (set_axis_params axis volt freq w) = Return None /\
   trace (exec (set_axis_params axis volt freq) w) =
     trace w ++
       [Hw (stage_hw.set_axis_config axis
              [(step_voltage, volt); (frequency, freq)]) (Some err);
        log_error (msg_err err)]).
Proof.
  destruct w as [s cfg flt calls cv ts tr]. cbn [hw_fault hw_calls].
  intros Hfault.
  unfold get_axis_params, set_axis_params. run_method.
  split; [|split].
  - destruct Hfault as [H0 | [H0 H1]]; rewrite H0; cbn;
      rewrite ?H1; reflexivity.
  - destruct Hfault as [H0 | [H0 H1]]; rewrite H0; cbn; rewrite ?H1; cbn.
    + eexists [_]. rewrite <- !app_assoc. split; [reflexivity|].
      repeat constructor. eauto.
    + eexists [_; _]. rewrite <- !app_assoc. split; [reflexivity|].
      repeat constructor; eauto.
  - intros ->. cbn. rewrite <- app_assoc. split; reflexivity.
Qed.

(** C6 where the second query faults. *)
Lemma get_axis_params_swallows_fault_witness :
  let w := world0 (fun k => if Nat.eqb k 1 then Some 7 else None) in
  fst (get_axis_params axis_x w) = Return None /\
  (exists queries,
     trace (exec (get_axis_params axis_x) w) =
       trace w ++ queries ++ [log_error (msg_err 7)] /\
     Forall (fun e => exists key fault,
                        e = Hw (stage_hw.get_axis_config axis_x key) fault)
       queries) /\
  (hw_fault w (hw_calls w) = Some 7 ->
   fst (set_axis_params axis_x 30 1000 w) = Return None /\
   trace (exec (set_axis_params axis_x 30 1000) w) =
     trace w ++
       [Hw (stage_hw.set_axis_config axis_x
              [(step_voltage, 30); (frequency, 1000)]) (Some 7);
        log_error (msg_err 7)]).
Proof.
  apply (get_axis_params_swallows_fault
           (world0 (fun k => if Nat.eqb k 1 then Some 7 else None))
           axis_x 30 1000 7).
  right. split; reflexivity.
Defined.

(** ** The joystick translator, sample after sample *)

(** *** The gate calls *)

Lemma gate_returns (g : GateCall) (w : World) :
  run_gate g w = (Return (gate_value g w), gate_world g w).
Proof.
  destruct w as [s cfg flt calls cv ts tr].
  destruct g; unfold gate_value, gate_world, run_gate, start_jog, stop_axis;
    run_method;
    destruct (flt calls); cbn; try reflexivity;
    destruct (flt (S calls)); reflexivity.
Qed.

Lemma gate_self (g : GateCall) (w : World) :
  self (gate_world g w) = self w /\ hw_fault (gate_world g w) = hw_fault w.
Proof.
  destruct w as [s cfg flt calls cv ts tr].
  destruct g; unfold gate_world, run_gate, start_jog, stop_axis;
    run_method;
    destruct (flt calls); cbn; auto;
    destruct (flt (S calls)); cbn; auto.
Qed.

Lemma gate_upd_self (g : GateCall) (f : Self -> Self) (w : World) :
  gate_world g (upd_self f w) = upd_self f (gate_world g w).
Proof.
  destruct w as [s cfg flt calls cv ts tr].
  destruct g; unfold gate_world, run_gate, start_jog, stop_axis;
    run_method;
    destruct (flt calls); cbn; auto;
    destruct (flt (S calls)); cbn; auto.
Qed.

Lemma Axis_eqb_refl (a : Axis) : Axis_eqb a a = true.
Proof. now destruct a. Qed.

Lemma Axis_eqb_eq (a b : Axis) : Axis_eqb a b = true <-> a = b.
Proof. destruct a, b; cbn; split; congruence. Qed.

Ltac gate_events :=
  repeat (apply Forall_cons || apply Forall_nil); cbn;
  first [ left; eexists; reflexivity
        | right; left; eexists; reflexivity
        | right; right; eexists; reflexivity ].

(** What a gate call adds to the trace; when the positioner accepts
    everything, the call commands its direction on its axis and nothing on
    the others. *)
Lemma gate_trace (g : GateCall) (w : World) :
  exists evs,
    trace (gate_world g w) = trace w ++ evs /\
    Forall (gate_event g) evs /\
    ((forall k, hw_fault w k = None) ->
     forall a d0,
       last_commanded_from a d0 evs =
         if Axis_eqb (gate_axis g) a then gate_direction g else d0).
Proof.
  destruct w as [s cfg flt calls cv ts tr]. cbn [hw_fault].
  destruct g as [ax d|ax];
    unfold gate_world, run_gate, start_jog, stop_axis; run_method.
  - destruct (flt calls) eqn:Hf0; cbn.
    + eexists [_; _]. rewrite <- !app_assoc. split; [reflexivity|].
      split; [gate_events|].
      intros Hnf. rewrite Hnf in Hf0. discriminate.
    + destruct (flt (S calls)) eqn:Hf1; cbn.
      * eexists [_; _; _]. rewrite <- !app_assoc. split; [reflexivity|].
        split; [gate_events|].
        intros Hnf. rewrite Hnf in Hf1. discriminate.
      * eexists [_; _]. rewrite <- !app_assoc. split; [reflexivity|].
        split; [gate_events|].
        intros _ a d0. cbn.
        destruct (Axis_eqb ax a) eqn:E;
          [apply Axis_eqb_eq in E; subst|]; reflexivity.
  - destruct (flt calls) eqn:Hf0; cbn.
    + eexists [_; _]. rewrite <- !app_assoc. split; [reflexivity|].
      split; [gate_events|].
      intros Hnf. rewrite Hnf in Hf0. discriminate.
    + destruct (flt (S calls)) eqn:Hf1; cbn.
      * eexists [_; _; _]. rewrite <- !app_assoc. split; [reflexivity|].
        split; [gate_events|].
        intros Hnf. rewrite Hnf in Hf1. discriminate.
      * eexists [_; _]. rewrite <- !app_assoc. split; [reflexivity|].
        split; [gate_events|].
        intros _ a d0. cbn.
        destruct (Axis_eqb ax a) eqn:E;
          [apply Axis_eqb_eq in E; subst|]; reflexivity.
Qed.

Lemma last_commanded_from_app (a : Axis) (d0 : Z) (tr1 tr2 : list Event) :
  last_commanded_from a d0 (tr1 ++ tr2) =
  last_commanded_from a (last_commanded_from a d0 tr1) tr2.
Proof. unfold last_commanded_from. apply fold_left_app. Qed.

Lemma run_gates_self (gs : list GateCall) : forall w,
  self (run_gates gs w) = self w /\ hw_fault (run_gates gs w) = hw_fault w.
Proof.
  induction gs as [|g gs IH]; intros w; cbn; [auto|].
  destruct (IH (gate_world g w)) as [-> ->]. apply gate_self.
Qed.

Lemma run_gates_trace (gs : list GateCall) : forall w,
  exists evs,
    trace (run_gates gs w) = trace w ++ evs /\
    Forall (fun e => exists g, In g gs /\ gate_event g e) evs /\
    ((forall k, hw_fault w k = None) ->
     forall a d0, last_commanded_from a d0 evs = last_gate a d0 gs).
Proof.
  induction gs as [|g gs IH]; intros w; cbn.
  - exists []. rewrite app_nil_r. repeat split; auto.
  - destruct (gate_trace g w) as (evs1 & Htr1 & Hev1 & Hnf1).
    destruct (IH (gate_world g w)) as (evs2 & Htr2 & Hev2 & Hnf2).
    exists (evs1 ++ evs2). split; [|split].
    + rewrite Htr2, Htr1. now rewrite app_assoc.
    + apply Forall_app. split.
      * eapply Forall_impl; [|exact Hev1]. cbn. eauto.
      * eapply Forall_impl; [|exact Hev2]. cbn.
        intros e (g' & Hin & Hg'). eauto.
    + intros Hnf a d0.
      rewrite last_commanded_from_app, Hnf1 by assumption.
      rewrite Hnf2; [reflexivity|].
      destruct (gate_self g w) as [_ ->]. assumption.
Qed.

#[local] Arguments gate_world : simpl never.

Lemma bind_gets {A B} (f : Self -> A) (k : A -> M B) (w : World) :
  bind (gets f) k w = k (f (self w)) w.
Proof. reflexivity. Qed.

Lemma bind_run_plan {B} (m : M unit) (p : Self -> Plan) (k : unit -> M B)
    (w : World) :
  m w = run_plan p w ->
  bind m k w = k tt (snd (run_plan p w)).
Proof. unfold bind. now intros ->. Qed.

Lemma run_gates_upd_self (gs : list GateCall) (f : Self -> Self) : forall w,
  run_gates gs (upd_self f w) = upd_self f (run_gates gs w).
Proof.
  induction gs as [|g gs IH]; intros w; cbn; [reflexivity|].
  now rewrite gate_upd_self, IH.
Qed.

Lemma run_gates_app (gs1 gs2 : list GateCall) : forall w,
  run_gates (gs1 ++ gs2) w = run_gates gs2 (run_gates gs1 w).
Proof. induction gs1 as [|g gs1 IH]; intros w; cbn; [reflexivity|apply IH]. Qed.

Lemma run_plan_then (p q : Self -> Plan) (w : World) :
  run_plan q (snd (run_plan p w)) = run_plan (fun s => plan_then (p s) q) w.
Proof.
  unfold run_plan, plan_then. cbn [snd].
  destruct (p (self w)) as [gs1 s1]. cbn [fst snd].
  change (self (upd_self (fun _ => s1) (run_gates gs1 w))) with s1.
  destruct (q s1) as [gs2 s2]. cbn [fst snd].
  now rewrite run_gates_upd_self, run_gates_app.
Qed.

Lemma gate_then_modify (g : GateCall) (f : Self -> Self) (w : World) :
  bind (run_gate g) (fun _ => modify f) w =
  (Return tt, upd_self (fun _ => f (self w)) (run_gates [g] w)).
Proof.
  unfold bind. rewrite gate_returns. cbn.
  unfold modify. f_equal.
  destruct (gate_self g w) as [Hs _].
  unfold upd_self. now rewrite Hs.
Qed.

Lemma upd_self_set_same (a : Axis) (w : World) :
  upd_self (fun _ => set_jog_running a (jog_running a (self w)) (self w)) w
  = w.
Proof. destruct w as [[] ? ? ? ? ? ?]. now destruct a. Qed.

Ltac block_cases g :=
  repeat match goal with
         | |- context [if ?c then _ else _] => destruct c
         end;
  cbn [fst snd run_gates];
  first [ apply (gate_then_modify g)
        | apply (gate_then_modify (gate_start_jog (gate_axis g) true))
        | apply (gate_then_modify (gate_start_jog (gate_axis g) false))
        | unfold ret; f_equal; symmetry;
          apply (upd_self_set_same (gate_axis g)) ].

Lemma z_block_plan (z : Q) (w : World) :
  (if Qeq_bool z 0 && negb (z_joystick_jog_running (self w) =? 0) then
     stop_axis axis_z ;;
     modify (set_z_joystick_jog_running 0)
   else if negb (np_sign z =? Z.sgn (z_joystick_jog_running (self w))) then
     if Qlt_bool 0 z then
       start_jog axis_z false ;;
       modify (set_z_joystick_jog_running 1)
     else if Qlt_bool z 0 then
       start_jog axis_z true ;;
       modify (set_z_joystick_jog_running (-1))
     else ret tt
   else ret tt) w = run_plan (plan_z z) w.
Proof.
  unfold run_plan, plan_z, flag_z.
  block_cases (gate_stop_axis axis_z).
Qed.

Lemma stop_block_plan (a : Axis) (req : Z) (w : World) :
  (if (req =? 0) && negb (jog_running a (self w) =? 0) then
     stop_axis a ;;
     modify (set_jog_running a 0)
   else ret tt) w = run_plan (plan_stop a req) w.
Proof.
  unfold run_plan, plan_stop, flag_stop.
  block_cases (gate_stop_axis a).
Qed.

Lemma move_block_plan (a : Axis) (req : Z) (v : Q) (w : World) :
  (if negb (req =? 0)
      && (negb (Z.sgn (jog_running a (self w)) =? Z.sgn req)
          || (jog_running a (self w) =? 0)) then
     if Qlt_bool 0 v then
       start_jog a true ;;
       modify (set_jog_running a 1)
     else if Qlt_bool v 0 then
       start_jog a false ;;
       modify (set_jog_running a (-1))
     else ret tt
   else ret tt) w = run_plan (plan_move a req v) w.
Proof.
  unfold run_plan, plan_move, flag_move.
  block_cases (gate_stop_axis a).
Qed.

Lemma xbox_joystick_move_plan (js : JoystickState) (w : World) :
  xbox_joystick_move js w = run_plan (jog_plan js) w.
Proof.
  unfold xbox_joystick_move, jog_plan, desired.
  destruct (required (x_left js) (y_left js)) as [rx ry]. cbn [fst snd].
  rewrite bind_gets.
  rewrite (bind_run_plan _ _ _ _ (z_block_plan (y_right js) w)).
  rewrite bind_gets.
  rewrite (bind_run_plan _ _ _ _ (stop_block_plan axis_x rx _)).
  rewrite bind_gets.
  rewrite (bind_run_plan _ _ _ _ (stop_block_plan axis_y ry _)).
  rewrite bind_gets.
  rewrite (bind_run_plan _ _ _ _ (move_block_plan axis_y ry (y_left js) _)).
  rewrite bind_gets.
  rewrite (move_block_plan axis_x rx (x_left js)).
  now rewrite !run_plan_then.
Qed.


(** *** The plan, axis by axis *)

Lemma Q_sign_cases (q : Q) :
  (np_sign q = 1 /\ Qlt_bool 0 q = true /\ Qlt_bool q 0 = false /\
   Qeq_bool q 0 = false) \/
  (np_sign q = 0 /\ Qlt_bool 0 q = false /\ Qlt_bool q 0 = false /\
   Qeq_bool q 0 = true) \/
  (np_sign q = -1 /\ Qlt_bool 0 q = false /\ Qlt_bool q 0 = true /\
   Qeq_bool q 0 = false).
Proof.
  destruct q as [[|n|n] d]; cbv; intuition congruence.
Qed.

Lemma required_cases (x y : Q) :
  (fst (required x y) = 0 \/ fst (required x y) = np_sign x) /\
  (snd (required x y) = 0 \/ snd (required x y) = np_sign y).
Proof.
  unfold required.
  repeat match goal with
         | |- context [if ?c then _ else _] => destruct c
         end; cbn [fst snd]; auto.
Qed.

Ltac sign_cases q :=
  let H1 := fresh in
  let H2 := fresh in
  let H3 := fresh in
  let H4 := fresh in
  destruct (Q_sign_cases q)
    as [(H1 & H2 & H3 & H4)|[(H1 & H2 & H3 & H4)|(H1 & H2 & H3 & H4)]];
  rewrite ?H1, ?H2, ?H3, ?H4 in *.

Ltac closed_case :=
  solve [ reflexivity | discriminate | congruence
        | intro; discriminate | intro; congruence ].

Ltac in_cases :=
  repeat match goal with
         | H : In _ _ |- _ => destruct H as [<- | H]
         | H : _ \/ _ |- _ => destruct H as [<- | H]
         | H : False |- _ => destruct H
         end.

Lemma flag_z_spec (z : Q) (r : Z) :
  let f := flag_z z r in
  (forall g, In g (fst f) -> on_change axis_z (np_sign z) r g) /\
  flag_z z (snd f) = ([], snd f) /\
  tracks axis_z r f.
Proof.
  unfold flag_z, tracks. sign_cases z; destruct r as [|p|p]; cbv;
    (split; [intros g Hin; in_cases; repeat split; closed_case|]);
    (split; [reflexivity|]);
    (split; [reflexivity|]);
    intros [] d0 Hne; first [reflexivity | exfalso; apply Hne; reflexivity].
Qed.

Lemma flag_stop_tracks (a : Axis) (req r : Z) :
  tracks a r (flag_stop a req r).
Proof.
  unfold flag_stop, tracks.
  destruct ((req =? 0) && negb (r =? 0)); cbn.
  - rewrite Axis_eqb_refl. split; [reflexivity|].
    intros a' d0 Hne. destruct (Axis_eqb a a') eqn:E; [|reflexivity].
    apply Axis_eqb_eq in E. congruence.
  - auto.
Qed.

Lemma flag_move_tracks (a : Axis) (req : Z) (v : Q) (r : Z) :
  a <> axis_z ->
  tracks a r (flag_move a req v r).
Proof.
  intros Hz. unfold flag_move, tracks.
  repeat match goal with
         | |- context [if ?c then _ else _] => destruct c
         end; cbn; rewrite ?Axis_eqb_refl;
    (split; [destruct a; first [reflexivity | congruence]|]);
    intros a' d0 Hne; try reflexivity;
    (destruct (Axis_eqb a a') eqn:E; [|reflexivity]);
    apply Axis_eqb_eq in E; congruence.
Qed.

Lemma flag_xy_spec (a : Axis) (req : Z) (v : Q) (r : Z) :
  a <> axis_z ->
  req = 0 \/ req = np_sign v ->
  let f1 := flag_stop a req r in
  let f2 := flag_move a req v (snd f1) in
  (forall g, In g (fst f1 ++ fst f2) -> on_change a req r g) /\
  flag_stop a req (snd f2) = ([], snd f2) /\
  flag_move a req v (snd f2) = ([], snd f2).
Proof.
  intros Hz Hreq. unfold flag_stop, flag_move.
  sign_cases v; destruct Hreq as [-> | ->]; destruct r as [|p|p]; cbv;
    (split; [intros g Hin; in_cases; destruct a;
             repeat split; closed_case|]);
    split; reflexivity.
Qed.

Lemma jog_plan_flags (js : JoystickState) (s : Self) :
  let rx := desired js axis_x in
  let ry := desired js axis_y in
  let fz := flag_z (y_right js) (z_joystick_jog_running s) in
  let fxs := flag_stop axis_x rx (x_joystick_jog_running s) in
  let fys := flag_stop axis_y ry (y_joystick_jog_running s) in
  let fym := flag_move axis_y ry (y_left js) (snd fys) in
  let fxm := flag_move axis_x rx (x_left js) (snd fxs) in
  jog_plan js s =
    (fst fz ++ fst fxs ++ fst fys ++ fst fym ++ fst fxm,
     set_x_joystick_jog_running (snd fxm)
       (set_y_joystick_jog_running (snd fym)
          (set_z_joystick_jog_running (snd fz) s))).
Proof. destruct s. reflexivity. Qed.

Lemma last_gate_app (a : Axis) (d0 : Z) (gs1 gs2 : list GateCall) :
  last_gate a d0 (gs1 ++ gs2) = last_gate a (last_gate a d0 gs1) gs2.
Proof. unfold last_gate. apply fold_left_app. Qed.

Lemma desired_cases (js : JoystickState) :
  (desired js axis_x = 0 \/ desired js axis_x = np_sign (x_left js)) /\
  (desired js axis_y = 0 \/ desired js axis_y = np_sign (y_left js)).
Proof. apply required_cases. Qed.

(** Every gate call of the plan is made on a change of its axis. *)
Lemma jog_plan_on_change (js : JoystickState) (s : Self) (g : GateCall) :
  In g (fst (jog_plan js s)) ->
  on_change (gate_axis g) (desired js (gate_axis g))
    (jog_running (gate_axis g) s) g.
Proof.
  rewrite jog_plan_flags. cbn [fst].
  destruct (desired_cases js) as [Hx Hy].
  destruct (flag_z_spec (y_right js) (z_joystick_jog_running s)) as (Hz & _).
  destruct (flag_xy_spec axis_x (desired js axis_x) (x_left js)
              (x_joystick_jog_running s) ltac:(discriminate) Hx)
    as (Hgx & _).
  destruct (flag_xy_spec axis_y (desired js axis_y) (y_left js)
              (y_joystick_jog_running s) ltac:(discriminate) Hy)
    as (Hgy & _).
  cbv zeta in Hz, Hgx, Hgy.
  intros Hin.
  repeat (apply in_app_or in Hin; destruct Hin as [Hin|Hin]).
  - specialize (Hz g Hin). destruct g; destruct Hz as (-> & ?); exact (conj eq_refl H).
  - specialize (Hgx g (in_or_app _ _ _ (or_introl Hin))).
    destruct g; destruct Hgx as (-> & ?); exact (conj eq_refl H).
  - specialize (Hgy g (in_or_app _ _ _ (or_introl Hin))).
    destruct g; destruct Hgy as (-> & ?); exact (conj eq_refl H).
  - specialize (Hgy g (in_or_app _ _ _ (or_intror Hin))).
    destruct g; destruct Hgy as (-> & ?); exact (conj eq_refl H).
  - specialize (Hgx g (in_or_app _ _ _ (or_intror Hin))).
    destruct g; destruct Hgx as (-> & ?); exact (conj eq_refl H).
Qed.

(** The same sample again changes nothing and calls nothing. *)
Lemma jog_plan_idempotent (js : JoystickState) (s : Self) :
  jog_plan js (snd (jog_plan js s)) = ([], snd (jog_plan js s)).
Proof.
  destruct (desired_cases js) as [Hx Hy].
  destruct (flag_z_spec (y_right js) (z_joystick_jog_running s))
    as (_ & Hz & _).
  destruct (flag_xy_spec axis_x (desired js axis_x) (x_left js)
              (x_joystick_jog_running s) ltac:(discriminate) Hx)
    as (_ & Hxs & Hxm).
  destruct (flag_xy_spec axis_y (desired js axis_y) (y_left js)
              (y_joystick_jog_running s) ltac:(discriminate) Hy)
    as (_ & Hys & Hym).
  cbv zeta in Hz, Hxs, Hxm, Hys, Hym.
  rewrite (jog_plan_flags js s). cbn [snd].
  rewrite jog_plan_flags. cbv zeta.
  destruct s as [xj yj zj delay ab slen vlen cur vcur counts].
  cbn [x_joystick_jog_running y_joystick_jog_running z_joystick_jog_running
       set_x_joystick_jog_running set_y_joystick_jog_running
       set_z_joystick_jog_running optimise_delay abort sweep_length
       v_sweep_length current_step current_v_step sweep_counts] in *.
  rewrite Hz, Hxs, Hys. cbn [fst snd]. rewrite Hxm, Hym. reflexivity.
Qed.

(** The flags the plan leaves are the directions of its last calls. *)
Lemma jog_plan_tracks (js : JoystickState) (s : Self) (a : Axis) :
  jog_running a (snd (jog_plan js s)) =
  last_gate a (jog_running a s) (fst (jog_plan js s)).
Proof.
  rewrite jog_plan_flags. cbv zeta. cbn [fst snd].
  destruct (flag_z_spec (y_right js) (z_joystick_jog_running s))
    as (_ & _ & Hz & Hz').
  cbv zeta in Hz, Hz'.
  set (rx := desired js axis_x). set (ry := desired js axis_y).
  destruct (flag_stop_tracks axis_x rx (x_joystick_jog_running s))
    as (Hxs & Hxs').
  destruct (flag_stop_tracks axis_y ry (y_joystick_jog_running s))
    as (Hys & Hys').
  destruct (flag_move_tracks axis_x rx (x_left js)
              (snd (flag_stop axis_x rx (x_joystick_jog_running s)))
              ltac:(discriminate)) as (Hxm & Hxm').
  destruct (flag_move_tracks axis_y ry (y_left js)
              (snd (flag_stop axis_y ry (y_joystick_jog_running s)))
              ltac:(discriminate)) as (Hym & Hym').
  rewrite !last_gate_app.
  destruct s as [xj yj zj delay ab slen vlen cur vcur counts].
  destruct a;
    cbn [jog_running x_joystick_jog_running y_joystick_jog_running
         z_joystick_jog_running set_x_joystick_jog_running
         set_y_joystick_jog_running set_z_joystick_jog_running] in *.
  - rewrite (Hz' axis_x) by discriminate. rewrite Hxs.
    rewrite (Hys' axis_x) by discriminate.
    rewrite (Hym' axis_x) by discriminate. now rewrite Hxm.
  - rewrite (Hz' axis_y) by discriminate.
    rewrite (Hxs' axis_y) by discriminate. rewrite Hys, Hym.
    now rewrite (Hxm' axis_y) by discriminate.
  - rewrite Hz. rewrite (Hxs' axis_z) by discriminate.
    rewrite (Hys' axis_z) by discriminate.
    rewrite (Hym' axis_z) by discriminate.
    now rewrite (Hxm' axis_z) by discriminate.
Qed.

(** *** The translator on the world *)

Lemma joystick_step (js : JoystickState) (w : World) :
  let plan := jog_plan js (self w) in
  let w' := exec (xbox_joystick_move js) w in
  self w' = snd plan /\
  hw_fault w' = hw_fault w /\
  trace w' = trace (run_gates (fst plan) w).
Proof.
  cbv zeta. unfold exec. rewrite xbox_joystick_move_plan.
  unfold run_plan. cbn [snd].
  destruct (run_gates_self (fst (jog_plan js (self w))) w) as [_ Hf].
  repeat split; assumption.
Qed.

Lemma start_event_gate (g : GateCall) (a : Axis) (d : bool) (f : option Z) :
  gate_event g (Hw (stage_hw.start_continuous_motion a d) f) ->
  g = gate_start_jog a d.
Proof.
  destruct g; cbn; intros [[f' H]|[[f' H]|[m H]]]; try discriminate H.
  now injection H as -> -> _.
Qed.

Lemma stop_event_gate (g : GateCall) (a : Axis) (f : option Z) :
  gate_event g (Hw (stage_hw.stop_axis a) f) ->
  g = gate_stop_axis a.
Proof.
  destruct g; cbn; intros [[f' H]|[[f' H]|[m H]]]; try discriminate H.
  now injection H as -> _.
Qed.

Lemma run_joystick_cons (js : JoystickState) (samples : list JoystickState)
    (w : World) :
  run_joystick (js :: samples) w =
  run_joystick samples (exec (xbox_joystick_move js) w).
Proof. reflexivity. Qed.

(** Each jog flag is the last direction commanded on its axis: kept by
    every sample as long as the positioner accepts every call. *)
Lemma jog_flags_follow_commands (samples : list JoystickState) : forall w,
  (forall k, hw_fault w k = None) ->
  (forall a, jog_running a (self w) = last_commanded a (trace w)) ->
  forall a,
    jog_running a (self (run_joystick samples w)) =
    last_commanded a (trace (run_joystick samples w)).
Proof.
  induction samples as [|js samples IH]; intros w Hnf Hinv a.
  - apply Hinv.
  - rewrite run_joystick_cons.
    destruct (joystick_step js w) as (Hs & Hf & Htr).
    apply IH.
    + intros k. rewrite Hf. apply Hnf.
    + intros a'. rewrite Hs, Htr, jog_plan_tracks.
      destruct (run_gates_trace (fst (jog_plan js (self w))) w)
        as (evs & -> & _ & Hlast).
      rewrite Hinv. unfold last_commanded.
      rewrite last_commanded_from_app. now rewrite (Hlast Hnf).
Qed.

(** C7, counterexample: the positioner faults when [start_jog] zeroes the
    offset voltage of y.  The fault is swallowed by [start_jog], no start is
    ever sent to the positioner, and the y flag goes to 1 all the same. *)
Lemma jog_flag_set_without_command :
  let w := exec (xbox_joystick_move (mkJoystickState 0 (9 # 10) 0))
             (world0 (fun k => if Nat.eqb k 0 then Some 7 else None)) in
  trace w =
    [Hw (stage_hw.set_axis_config axis_y [(offset_voltage, 0)]) (Some 7);
     log_error (msg_err 7)] /\
  jog_running axis_y (self w) = 1 /\
  last_commanded axis_y (trace w) = 0 /\
  jog_running axis_y (self w) <> last_commanded axis_y (trace w).
Proof. vm_compute. repeat split; discriminate. Qed.

(** C7, as the code has it.  For a sample [js] met in any state [w]:
    a start call reaches the positioner for an axis only if the direction
    desired for it differs from its jog flag, and it is in that direction; a
    stop call only if the flag is up and no motion is desired; the same
    sample again makes no call and changes no flag.  And along any sequence
    of samples, as long as the positioner accepts every call, each jog flag
    is the last direction commanded to the positioner on its axis. *)
Theorem joystick_commands_on_change
    (w : World) (js : JoystickState) (samples : list JoystickState) :
  let w' := exec (xbox_joystick_move js) w in
  (exists evs,
     trace w' = trace w ++ evs /\
     (forall a d f,
        In (Hw (stage_hw.start_continuous_motion a d) f) evs ->
        desired js a <> jog_running a (self w) /\
        jog_direction a d = desired js a) /\
     (forall a f,
        In (Hw (stage_hw.stop_axis a) f) evs ->
        jog_running a (self w) <> 0 /\ desired js a = 0)) /\
  (trace (exec (xbox_joystick_move js) w') = trace w' /\
   self (exec (xbox_joystick_move js) w') = self w') /\
  ((forall k, hw_fault w k = None) ->
   (forall a, jog_running a (self w) = last_commanded a (trace w)) ->
   forall a,
     jog_running a (self (run_joystick samples w)) =
     last_commanded a (trace (run_joystick samples w))).
Proof.
  intros w'.
  destruct (joystick_step js w) as (Hs & Hf & Htr). fold w' in Hs, Hf, Htr.
  split; [|split].
  - destruct (run_gates_trace (fst (jog_plan js (self w))) w)
      as (evs & Hevs & Hgates & _).
    exists evs. rewrite Htr. split; [assumption|].
    rewrite Forall_forall in Hgates.
    split.
    + intros a d f Hin.
      destruct (Hgates _ Hin) as (g & Hg & Hev).
      apply start_event_gate in Hev. subst g.
      destruct (jog_plan_on_change js (self w) _ Hg) as (_ & Hne & Hdir).
      auto.
    + intros a f Hin.
      destruct (Hgates _ Hin) as (g & Hg & Hev).
      apply stop_event_gate in Hev. subst g.
      destruct (jog_plan_on_change js (self w) _ Hg) as (_ & Hne & Hdsr).
      auto.
  - destruct (joystick_step js w') as (Hs2 & _ & Htr2).
    rewrite Hs2, Htr2, Hs, jog_plan_idempotent. cbn [fst snd run_gates].
    auto.
  - apply jog_flags_follow_commands.
Qed.

(** C7 on a push of the left stick up, then its release. *)
Lemma joystick_commands_on_change_witness :
  let w := world0 no_fault in
  let js := mkJoystickState 0 (9 # 10) 0 in
  let samples := [js; mkJoystickState 0 0 0] in
  let w' := exec (xbox_joystick_move js) w in
  (exists evs,
     trace w' = trace w ++ evs /\
     (forall a d f,
        In (Hw (stage_hw.start_continuous_motion a d) f) evs ->
        desired js a <> jog_running a (self w) /\
        jog_direction a d = desired js a) /\
     (forall a f,
        In (Hw (stage_hw.stop_axis a) f) evs ->
        jog_running a (self w) <> 0 /\ desired js a = 0)) /\
  (trace (exec (xbox_joystick_move js) w') = trace w' /\
   self (exec (xbox_joystick_move js) w') = self w') /\
  (jog_running axis_x (self (run_joystick samples w)) =
     last_commanded axis_x (trace (run_joystick samples w)) /\
   jog_running axis_y (self (run_joystick samples w)) =
     last_commanded axis_y (trace (run_joystick samples w)) /\
   jog_running axis_z (self (run_joystick samples w)) =
     last_commanded axis_z (trace (run_joystick samples w))).
Proof.
  pose proof (joystick_commands_on_change (world0 no_fault)
                (mkJoystickState 0 (9 # 10) 0)
                [mkJoystickState 0 (9 # 10) 0; mkJoystickState 0 0 0])
    as (Hedge & Hsame & Hflags).
  split; [exact Hedge|]. split; [exact Hsame|].
  assert (Hnf : forall k, hw_fault (world0 no_fault) k = None)
    by reflexivity.
  assert (Hinv : forall a, jog_running a (self (world0 no_fault)) =
                           last_commanded a (trace (world0 no_fault)))
    by (intros []; reflexivity).
  repeat split; apply (Hflags Hnf Hinv).
Defined.

(** ** The sector boundary *)

Lemma Qlt_bool_false (a b : Q) : (b <= a)%Q -> Qlt_bool a b = false.
Proof.
  intros H. unfold Qlt_bool. apply Qle_bool_iff in H. now rewrite H.
Qed.

(** On the line [|y| = 2|x|], outside the dead zone, neither strict test
    holds: the sample is in the diagonal sector. *)
Lemma sector_boundary_line (x y : Q) :
  (Qabs y == 2 * Qabs x)%Q ->
  (1 # 100 <= x * x + y * y)%Q ->
  required x y = (np_sign x, np_sign y).
Proof.
  intros Hline Hout. unfold required.
  rewrite (Qlt_bool_false _ _ Hout).
  assert (H2x : (Qabs (2 * x) == 2 * Qabs x)%Q)
    by (rewrite Qabs_Qmult; reflexivity).
  assert (H2y : (Qabs (2 * y) == 4 * Qabs x)%Q).
  { rewrite Qabs_Qmult, Hline. change (Qabs 2) with 2%Q. ring. }
  rewrite Qlt_bool_false by (rewrite H2x, Hline; apply Qle_refl).
  rewrite Qlt_bool_false.
  2:{ rewrite H2y. pose proof (Qabs_nonneg x) as Hx.
      setoid_replace (Qabs x) with (1 * Qabs x)%Q at 1 by ring.
      apply Qmult_le_compat_r; [discriminate|assumption]. }
  destruct (Q_sign_cases x) as [(Hx & _ & _ & Hx0)|[(Hx & _ & _ & Hx0)|(Hx & _ & _ & Hx0)]];
  destruct (Q_sign_cases y) as [(Hy & _ & _ & Hy0)|[(Hy & _ & _ & Hy0)|(Hy & _ & _ & Hy0)]];
  rewrite Hx0, Hy0, Hx, Hy; reflexivity.
Qed.

(** C8, counterexample: at [xIn = 1], [yIn = 2] the sector policy does not
    ask for pure y motion: the required x direction is not 0. *)
Lemma sector_boundary_not_pure_y :
  required 1 2 <> (0, np_sign 2).
Proof. vm_compute. discriminate. Qed.

(** C8, as the code has it: [xIn = 1], [yIn = 2] is outside the dead zone
    and on the line [|y| = 2|x|], which the strict comparison leaves out of
    the pure-y sector; it is not in the pure-x sector either, so the sample
    falls into the diagonal branch: x and y are both required, each in the
    direction of its sign, and both axes are commanded. *)
Theorem sector_boundary_is_diagonal :
  let x := 1%Q in
  let y := 2%Q in
  Qlt_bool (x * x + y * y) (1 # 100) = false /\
  Qlt_bool (Qabs (2 * x)) (Qabs y) = false /\
  Qlt_bool (Qabs (2 * y)) (Qabs x) = false /\
  required x y = (np_sign x, np_sign y) /\
  required x y = (1, 1) /\
  let w := exec (xbox_joystick_move (mkJoystickState x y 0))
             (world0 no_fault) in
  hw_calls_of (trace w) =
    [stage_hw.set_axis_config axis_y [(offset_voltage, 0)];
     stage_hw.start_continuous_motion axis_y true;
     stage_hw.set_axis_config axis_x [(offset_voltage, 0)];
     stage_hw.start_continuous_motion axis_x true] /\
  x_joystick_jog_running (self w) = 1 /\
  y_joystick_jog_running (self w) = 1.
Proof. vm_compute. repeat split; reflexivity. Qed.

(** * Further properties *)

(** ** The command gate and the buttons *)

Ltac gate_cases w :=
  destruct w as [s cfg flt calls cv ts tr];
  unfold undisturbed, start_jog, step, stop, stop_axis, set_axis_params,
    get_axis_params;
  run_method;
  destruct (flt calls); cbn; [|destruct (flt (S calls)); cbn];
  repeat split; eauto.

(** X1: the six methods behind [hwerror_handler] return normally whatever
    the positioner does, on every call and with every fault, and they leave
    the attributes of [self], the pending timers and the counter as they
    were: a manual command cannot raise into its caller nor disturb a sweep's
    cursor, samples or timer. *)
Theorem gate_methods_return_and_leave_session
    (w : World) (axis : Axis) (direction : bool) (steps volt freq : Z) :
  ((exists r, fst (start_jog axis direction w) = Return r) /\
   undisturbed w (exec (start_jog axis direction) w)) /\
  ((exists r, fst (step axis steps w) = Return r) /\
   undisturbed w (exec (step axis steps) w)) /\
  ((exists r, fst (stop w) = Return r) /\
   undisturbed w (exec stop w)) /\
  ((exists r, fst (stop_axis axis w) = Return r) /\
   undisturbed w (exec (stop_axis axis) w)) /\
  ((exists r, fst (set_axis_params axis volt freq w) = Return r) /\
   undisturbed w (exec (set_axis_params axis volt freq) w)) /\
  ((exists r, fst (get_axis_params axis w) = Return r) /\
   undisturbed w (exec (get_axis_params axis) w)).
Proof.
  repeat split; try solve [gate_cases w].
  all: destruct w as [s cfg flt calls cv ts tr];
    unfold stop, set_axis_params; run_method;
    destruct (flt calls); cbn; eauto.
Qed.

Ltac in_events H :=
  cbn in H;
  repeat match type of H with
         | _ \/ _ => destruct H as [H|H]
         | False => destruct H
         end;
  try discriminate H.

(** What one [step] does, for the buttons. *)
Lemma step_outcome (w : World) (axis : Axis) (steps : Z) :
  exists r evs,
    step axis steps w = (Return r, exec (step axis steps) w) /\
    undisturbed w (exec (step axis steps) w) /\
    trace (exec (step axis steps) w) = trace w ++ evs /\
    motion_with_offset (hw_config w) evs = [] /\
    (forall a k f, In (Hw (stage_hw.move_steps a k) f) evs ->
                   a = axis /\ k = steps) /\
    (length (hw_calls_of evs) <= 2)%nat.
Proof.
  destruct w as [s cfg flt calls cv ts tr].
  unfold undisturbed, step. run_method.
  destruct (flt calls) eqn:Hf0; cbn;
    [|destruct (flt (S calls)) eqn:Hf1; cbn];
    do 2 eexists; rewrite <- ?app_assoc;
    (split; [reflexivity|]);
    (split; [repeat split|]);
    (split; [reflexivity|]);
    (split; [cbn; destruct axis; reflexivity|]);
    (split; [intros a k f Hin; in_events Hin; split; congruence
            |cbn; lia]).
Qed.

Lemma stop_outcome (w : World) :
  exists r evs,
    stop w = (Return r, exec stop w) /\
    undisturbed w (exec stop w) /\
    trace (exec stop w) = trace w ++ evs /\
    motion_with_offset (hw_config w) evs = [] /\
    (forall a k f, In (Hw (stage_hw.move_steps a k) f) evs -> False) /\
    (length (hw_calls_of evs) <= 2)%nat /\
    (exists f, In (Hw stage_hw.stop_all f) evs).
Proof.
  destruct w as [s cfg flt calls cv ts tr].
  unfold undisturbed, stop. run_method.
  destruct (flt calls) eqn:Hf0; cbn;
    do 2 eexists; rewrite <- ?app_assoc;
    (split; [reflexivity|]);
    (split; [repeat split|]);
    (split; [reflexivity|]);
    (split; [reflexivity|]);
    (split; [intros a k f Hin; in_events Hin|]);
    (split; [cbn; lia|]);
    eexists; left; reflexivity.
Qed.

#[local] Arguments step : simpl never.
#[local] Arguments stop : simpl never.

Ltac button_step w a k :=
  let r := fresh "r" in
  let evs := fresh "evs" in
  let Hst := fresh "Hst" in
  let Hun := fresh "Hun" in
  let Htr := fresh "Htr" in
  let Hmo := fresh "Hmo" in
  let Hmv := fresh "Hmv" in
  let Hlen := fresh "Hlen" in
  destruct (step_outcome w a k)
    as (r & evs & Hst & Hun & Htr & Hmo & Hmv & Hlen);
  unfold exec, bind, ret in *; cbn; rewrite Hst; cbn;
  split; [reflexivity|]; split; [exact Hun|];
  exists evs;
  split; [exact Htr|]; split; [exact Hmo|];
  split; [intros a' k' f' Hin; destruct (Hmv a' k' f' Hin) as [_ ->]; auto|];
  split; [exact Hlen|];
  intros Hn; exfalso; apply Hn; cbn; auto 10.

(** X2: whatever the name of the button, whatever the positioner does, a
    button press returns normally, leaves the attributes of [self], the
    timers and the counter alone, makes at most two hardware calls, moves an
    axis by one step at most (each move is by 1 or -1), never while that axis
    has an offset voltage, and does nothing at all for a name it does not
    know. *)
Theorem button_press_is_one_safe_step (button : string) (w : World) :
  let w' := exec (xbox_button_press button) w in
  fst (xbox_button_press button w) = Return tt /\
  undisturbed w w' /\
  exists evs,
    trace w' = trace w ++ evs /\
    motion_with_offset (hw_config w) evs = [] /\
    (forall a k f, In (Hw (stage_hw.move_steps a k) f) evs ->
                   k = 1 \/ k = -1) /\
    (length (hw_calls_of evs) <= 2)%nat /\
    (~ In button known_buttons -> evs = []).
Proof.
  cbv zeta. unfold xbox_button_press.
  destruct (String.eqb_spec button "left_down") as [->|H1];
    [button_step w axis_y (-1)|].
  destruct (String.eqb_spec button "left_up") as [->|H2];
    [button_step w axis_y 1|].
  destruct (String.eqb_spec button "left_left") as [->|H3];
    [button_step w axis_x (-1)|].
  destruct (String.eqb_spec button "left_right") as [->|H4];
    [button_step w axis_x 1|].
  destruct (String.eqb_spec button "right_right") as [->|H5].
  { destruct (stop_outcome w)
      as (r & evs & Hst & Hun & Htr & Hmo & Hmv & Hlen & _).
    unfold exec, bind, ret in *; cbn; rewrite Hst; cbn.
    split; [reflexivity|]. split; [exact Hun|].
    exists evs. split; [exact Htr|]. split; [exact Hmo|].
    split; [intros a k f Hin; destruct (Hmv a k f Hin)|].
    split; [exact Hlen|].
    intros Hn; exfalso; apply Hn; cbn; auto 10. }
  destruct (String.eqb_spec button "left_shoulder") as [->|H6];
    [button_step w axis_z (-1)|].
  destruct (String.eqb_spec button "right_shoulder") as [->|H7];
    [button_step w axis_z 1|].
  unfold exec, bind, ret. cbn.
  split; [reflexivity|]. split; [repeat split|].
  exists []. rewrite app_nil_r. repeat split; cbn; auto.
  intros a k f [].
Qed.

Lemma button_B_is_stop (w : World) :
  exec (xbox_button_press "right_right") w = exec stop w.
Proof.
  destruct (stop_outcome w) as (r & evs & Hst & _).
  unfold xbox_button_press, exec, bind, ret in *. cbn.
  now rewrite Hst.
Qed.

(** X3: the B button stops every axis on the positioner but leaves the jog
    flags as they are.  So when the stick is held where it was, the next
    identical sample finds flags that already match, makes no call and
    changes no flag: the stage stays stopped until the stick moves. *)
Theorem stop_button_leaves_jog_flags (w : World) (js : JoystickState) :
  let w1 := exec (xbox_joystick_move js) w in
  let w2 := exec (xbox_button_press "right_right") w1 in
  let w3 := exec (xbox_joystick_move js) w2 in
  (exists evs f, trace w2 = trace w1 ++ evs /\
                 In (Hw stage_hw.stop_all f) evs) /\
  self w2 = self w1 /\
  trace w3 = trace w2 /\
  self w3 = self w1.
Proof.
  intros w1 w2 w3.
  assert (Hw2 : w2 = exec stop w1) by apply button_B_is_stop.
  destruct (stop_outcome w1)
    as (r & evs & _ & (Hs & _) & Htr & _ & _ & _ & f & Hin).
  rewrite <- Hw2 in Hs, Htr.
  destruct (joystick_step js w) as (Hs1 & _). fold w1 in Hs1.
  destruct (joystick_step js w2) as (Hs3 & _ & Htr3). fold w3 in Hs3, Htr3.
  rewrite Hs, Hs1, jog_plan_idempotent in Hs3, Htr3. cbn in Hs3, Htr3.
  split; [exists evs, f; auto|].
  split; [assumption|]. split; [assumption|]. now rewrite Hs1.
Qed.

(** ** How an optimisation starts and stops *)

(** X4: a positioner fault while an optimisation starts.  In the step
    branch, a fault of the zeroing call is not caught: [optimise_z] raises
    it, before any move; a fault of the move to the edge of the range is
    caught and logged, and [optimise_z] returns.  In the volt branch, the
    fault of the move back is not caught either.  In the three cases the
    counter is not started and no timer is armed: the sweep never samples. *)
Theorem optimise_z_start_fault (w : World) (steps volts err : Z) :
  (0 < steps ->
   hw_fault w (hw_calls w) = Some err ->
   fst (optimise_z steps volts w) = Raise (PositionerError err) /\
   timers (exec (optimise_z steps volts) w) = timers w /\
   trace (exec (optimise_z steps volts) w) =
     trace w ++
       [Hw (stage_hw.set_axis_config axis_z [(offset_voltage, 0)])
          (Some err)]) /\
  (0 < steps ->
   hw_fault w (hw_calls w) = None ->
   hw_fault w (S (hw_calls w)) = Some err ->
   fst (optimise_z steps volts w) = Return tt /\
   timers (exec (optimise_z steps volts) w) = timers w /\
   trace (exec (optimise_z steps volts) w) =
     trace w ++
       [Hw (stage_hw.set_axis_config axis_z [(offset_voltage, 0)]) None;
        Hw (stage_hw.move_steps axis_z (- steps)) (Some err);
        log_error (msg_aborting_sweep err)]) /\
  (steps <= 0 ->
   0 < volts ->
   hw_fault w (hw_calls w) = Some err ->
   fst (optimise_z steps volts w) = Raise (PositionerError err) /\
   timers (exec (optimise_z steps volts) w) = timers w /\
   trace (exec (optimise_z steps volts) w) =
     trace w ++
       [log_debug (msg_moving_back (volts / 20 + 1));
        Hw (stage_hw.move_steps axis_z (- (volts / 20 + 1))) (Some err)]).
Proof.
  open_world w.
  split; [|split].
  - intros Hs Hf. apply Z.ltb_lt in Hs.
    run_method. rewrite Hs. run_method. rewrite Hf. cbn. auto.
  - intros Hs Hf0 Hf1. apply Z.ltb_lt in Hs.
    run_method. rewrite Hs. run_method. rewrite Hf0. cbn. rewrite Hf1. cbn.
    rewrite <- !app_assoc. auto.
  - intros Hs Hv Hf. apply Z.ltb_ge in Hs. apply Z.ltb_lt in Hv.
    run_method. rewrite Hs, Hv. run_method. rewrite Hf. cbn.
    rewrite <- !app_assoc. auto.
Qed.

(** X4 where the move to the edge of the range faults. *)
Lemma optimise_z_start_fault_witness :
  let w := world0 (fun k => if Nat.eqb k 1 then Some 7 else None) in
  fst (optimise_z 5 0 w) = Return tt /\
  timers (exec (optimise_z 5 0) w) = timers w /\
  trace (exec (optimise_z 5 0) w) =
    trace w ++
      [Hw (stage_hw.set_axis_config axis_z [(offset_voltage, 0)]) None;
       Hw (stage_hw.move_steps axis_z (- 5)) (Some 7);
       log_error (msg_aborting_sweep 7)].
Proof.
  apply (optimise_z_start_fault
           (world0 (fun k => if Nat.eqb k 1 then Some 7 else None)) 5 0 7);
    [lia | reflexivity | reflexivity].
Defined.

Lemma argmax_snoc (counts : list Z) (c : Z) :
  exists i, argmax (counts ++ [c]) = Some i.
Proof. apply argmax_nonempty. destruct counts; discriminate. Qed.


(** X6: a positioner fault in the middle of a sweep.  The tick has stored
    its sample and told the observers; it logs the fault, stops the counter
    and ends the sweep there: the cursor stays, no timer is armed, nothing is
    relocated and the done signal is not sent.  The two loops do the same. *)
Theorem sampling_fault_stops_counter (w : World) (err : Z) :
  abort (self w) = false ->
  module_state (counter w) = locked ->
  hw_fault w (hw_calls w) = Some err ->
  let c := countdata_smoothed_last (counter w) in
  (current_step (self w) < sweep_length (self w) ->
   let w' := exec _optimisation_step w in
   trace w' =
     trace w ++
       [sigCountDataUpdated;
        Hw (stage_hw.move_steps axis_z 1) (Some err);
        log_error (msg_aborting_sweep err);
        stopCount] /\
   timers w' = timers w /\
   current_step (self w') = current_step (self w) /\
   sweep_counts (self w') = sweep_counts (self w) ++ [c]) /\
  (current_v_step (self w) < v_sweep_length (self w) ->
   let w' := exec _volt_optimisation_step w in
   trace w' =
     trace w ++
       [sigCountDataUpdated;
        Hw (stage_hw.set_axis_config axis_z
              [(offset_voltage, current_v_step (self w))]) (Some err);
        log_error (msg_aborting_sweep err);
        stopCount] /\
   timers w' = timers w /\
   current_v_step (self w') = current_v_step (self w) /\
   sweep_counts (self w') = sweep_counts (self w) ++ [c]).
Proof.
  open_world w. intros -> -> Hf.
  split; intros Hlt; apply Z.ltb_lt in Hlt;
    run_method; rewrite Hlt; cbn; rewrite Hf; cbn;
    rewrite <- !app_assoc; auto.
Qed.

(** X6 on the second tick of a sweep whose third hardware call faults. *)
Lemma sampling_fault_stops_counter_witness :
  let w := set_counter (counting 5)
             (exec (optimise_z 2 0)
                (world0 (fun k => if Nat.eqb k 2 then Some 7 else None))) in
  let c := countdata_smoothed_last (counter w) in
  (current_step (self w) < sweep_length (self w) ->
   let w' := exec _optimisation_step w in
   trace w' =
     trace w ++
       [sigCountDataUpdated;
        Hw (stage_hw.move_steps axis_z 1) (Some 7);
        log_error (msg_aborting_sweep 7);
        stopCount] /\
   timers w' = timers w /\
   current_step (self w') = current_step (self w) /\
   sweep_counts (self w') = sweep_counts (self w) ++ [c]) /\
  (current_v_step (self w) < v_sweep_length (self w) ->
   let w' := exec _volt_optimisation_step w in
   trace w' =
     trace w ++
       [sigCountDataUpdated;
        Hw (stage_hw.set_axis_config axis_z
              [(offset_voltage, current_v_step (self w))]) (Some 7);
        log_error (msg_aborting_sweep 7);
        stopCount] /\
   timers w' = timers w /\
   current_v_step (self w') = current_v_step (self w) /\
   sweep_counts (self w') = sweep_counts (self w) ++ [c]).
Proof.
  apply (sampling_fault_stops_counter
           (set_counter (counting 5)
              (exec (optimise_z 2 0)
                 (world0 (fun k => if Nat.eqb k 2 then Some 7 else None))))
           7); reflexivity.
Defined.

Lemma run_timers_idle (cvs : list CounterView) (w : World) :
  timers w = [] -> run_timers cvs w = w.
Proof.
  intros Ht. induction cvs as [|cv cvs IH]; [reflexivity|].
  rewrite run_timers_cons. unfold fire. now rewrite Ht.
Qed.

(** X7: once the abort flag is up, the next expiry of a sampling timer (of
    either loop) stops the counter and that is the end of the run: whatever
    comes after, nothing more is done, no hardware call, no done signal, no
    timer, and the attributes of [self] stay as the abort found them. *)
Theorem abort_ends_the_run
    (w : World) (s : Slot) (cv : CounterView) (cvs : list CounterView) :
  abort (self w) = true ->
  s = slot_optimisation_step \/ s = slot_volt_optimisation_step ->
  timers w = [s] ->
  let w' := run_timers (cv :: cvs) w in
  trace w' = trace w ++ [stopCount] /\
  timers w' = [] /\
  self w' = self w.
Proof.
  intros Hab Hs Ht w'. subst w'.
  rewrite run_timers_cons.
  assert (Hfire : fire cv w = record stopCount (set_counter cv (set_timers [] w))).
  { unfold fire. rewrite Ht. now apply abort_stops_sampling. }
  rewrite Hfire, run_timers_idle by reflexivity.
  repeat split.
Qed.

(** X7 for an abort during the step sweep of [optimise_z 2 3]. *)
Lemma abort_ends_the_run_witness :
  let w := exec abort_optimisation
             (run_timers (map counting [5; 7])
                (exec (optimise_z 2 3) (world0 no_fault))) in
  let w' := run_timers (counting 6 :: map counting [4; 4; 4; 4]) w in
  trace w' = trace w ++ [stopCount] /\
  timers w' = [] /\
  self w' = self w.
Proof.
  apply (abort_ends_the_run
           (exec abort_optimisation
              (run_timers (map counting [5; 7])
                 (exec (optimise_z 2 3) (world0 no_fault))))
           slot_optimisation_step (counting 6) (map counting [4; 4; 4; 4]));
    [reflexivity | left; reflexivity | reflexivity].
Defined.

(** ** Every optimisation ends *)

(** Each expiry of the pending timer brings the end nearer, whatever the
    counter shows and whatever the positioner does. *)
Lemma fire_ticks_left (cv : CounterView) (w : World) :
  length (timers w) = 1%nat ->
  (length (timers (fire cv w)) <= 1)%nat /\
  (ticks_left (fire cv w) < ticks_left w)%nat.
Proof.
  destruct w as [[xj yj zj delay ab slen vlen cur vcur counts]
                   cfg flt calls cv0 ts tr].
  destruct cv as [mstate c].
  destruct (argmax_snoc counts c) as (i & Hi).
  destruct ts as [|s [|s' ts]]; try discriminate. intros _.
  unfold fire, ticks_left. cbn [timers].
  destruct s; run_method.
  - destruct ab; [cbn; lia|].
    destruct mstate; try (cbn; lia). cbn.
    destruct (cur <? slen) eqn:Hlt; cbn.
    + apply Z.ltb_lt in Hlt. destruct (flt calls); cbn; lia.
    + rewrite Hi. cbn.
      destruct (0 <? 2 * slen - Z.of_nat i); cbn;
        [destruct (flt calls); cbn|];
        destruct (0 <? vlen); cbn; lia.
  - destruct ab; [cbn; lia|].
    destruct mstate; try (cbn; lia). cbn.
    destruct (vcur <? vlen) eqn:Hlt; cbn.
    + apply Z.ltb_lt in Hlt. destruct (flt calls); cbn; lia.
    + rewrite Hi. cbn. destruct (flt calls); cbn; lia.
  - destruct (flt calls); cbn; lia.
Qed.

Lemma run_timers_ticks_left (cvs : list CounterView) : forall w,
  (length (timers w) <= 1)%nat ->
  (ticks_left w <= length cvs)%nat ->
  timers (run_timers cvs w) = [].
Proof.
  induction cvs as [|cv cvs IH]; intros w Hone Hleft.
  - cbn in *. unfold ticks_left in Hleft.
    destruct (timers w) as [|[] ?]; [reflexivity|lia|lia|lia].
  - destruct (timers w) as [|s ts] eqn:Ht.
    + now rewrite run_timers_idle.
    + rewrite run_timers_cons.
      destruct (fire_ticks_left cv w) as (Hone' & Hless).
      { rewrite Ht in *. cbn in *. lia. }
      apply IH; [assumption|]. cbn in Hleft. lia.
Qed.

(** X8: an optimisation started by [optimise_z steps volts] when no timer is
    pending is over after at most [2 * steps + volts + 3] timer expiries
    (negative counts taken as 0): by then no timer is pending any more.  The
    bound holds for every reading of the counter, every fault of the
    positioner and every state of the abort flag; it is the number of
    expiries of a full sweep of both phases. *)
Theorem optimisation_terminates
    (w : World) (steps volts : Z) (cvs : list CounterView) :
  timers w = [] ->
  (Z.to_nat (2 * steps) + Z.to_nat volts + 3 <= length cvs)%nat ->
  timers (run_timers cvs (exec (optimise_z steps volts) w)) = [].
Proof.
  intros Ht Hlen.
  assert (Hstart :
    (length (timers (exec (optimise_z steps volts) w)) <= 1)%nat /\
    (ticks_left (exec (optimise_z steps volts) w)
     <= Z.to_nat (2 * steps) + Z.to_nat volts + 3)%nat).
  { revert Ht. open_world w. intros ->. unfold ticks_left.
    run_method.
    destruct (0 <? steps) eqn:Hs; run_method.
    - apply Z.ltb_lt in Hs.
      destruct (flt calls); cbn; [lia|].
      destruct (flt (S calls)); cbn; lia.
    - destruct (0 <? volts) eqn:Hv; run_method.
      + destruct (flt calls); cbn; lia.
      + lia. }
  destruct Hstart as (Hone & Hleft).
  apply run_timers_ticks_left; [assumption|lia].
Qed.

(** X8 for [optimise_z 1 2]: eight expiries, the counter idle at the
    third. *)
Lemma optimisation_terminates_witness :
  timers
    (run_timers
       [counting 1; counting 2; mkCounterView idle 0; counting 3;
        counting 4; counting 5; counting 6; counting 7]
       (exec (optimise_z 1 2) (world0 no_fault))) = [].
Proof.
  apply (optimisation_terminates (world0 no_fault) 1 2);
    [reflexivity | cbn; lia].
Defined.

(** ** Where the step sweep leaves the stage *)

Lemma steps_moved_app (axis : Axis) (tr1 tr2 : list Event) :
  steps_moved axis (tr1 ++ tr2) =
  steps_moved axis tr1 + steps_moved axis tr2.
Proof.
  induction tr1 as [|e tr1 IH]; [reflexivity|].
  cbn [app steps_moved].
  destruct e as [[] []| | | | | | |]; rewrite ?IH; try reflexivity. lia.
Qed.

Lemma steps_moved_step_ticks (delay : Z) (cs : list Z) :
  steps_moved axis_z (flat_map (fun _ => step_tick delay) cs) =
  Z.of_nat (length cs).
Proof.
  induction cs as [|c cs IH]; [reflexivity|].
  cbn [flat_map length]. rewrite steps_moved_app, IH.
  cbn [step_tick steps_moved Axis_eqb]. lia.
Qed.

Lemma skipn_own_trace (tr evs : list Event) :
  skipn (length tr) (tr ++ evs) = evs.
Proof. now rewrite skipn_app, skipn_all, Nat.sub_diag. Qed.

(** X9: a step sweep that runs to the end on a positioner that accepts
    every move leaves the stage where the best sample was taken.  Counting
    the steps moved on z since [optimise_z] was called: the sample of index
    [j] is stored when the stage is at [j - stepCount], and after the last
    tick the stage is at [maxIndex - stepCount], the place of the first
    maximum. *)
Theorem step_sweep_returns_to_optimum
    (w : World) (stepCount voltCount : Z) (samples : list Z) :
  0 < stepCount ->
  timers w = [] ->
  length samples = Z.to_nat (2 * stepCount + 1) ->
  (forall k, (k < Z.to_nat (2 * stepCount + 3))%nat ->
             hw_fault w (hw_calls w + k) = None) ->
  let w1 := exec (optimise_z stepCount voltCount) w in
  let position w0 :=
    steps_moved axis_z (skipn (length (trace w)) (trace w0)) in
  (forall j, (j < length samples)%nat ->
     position (run_timers (map counting (firstn j samples)) w1)
       = Z.of_nat j - stepCount) /\
  exists maxIndex : nat,
    first_max samples maxIndex /\
    position (run_timers (map counting samples) w1)
      = Z.of_nat maxIndex - stepCount /\
    position (run_timers (map counting samples) w1)
      = position (run_timers (map counting (firstn maxIndex samples)) w1).
Proof.
  intros Hpos Ht Hlen Hf w1 position.
  assert (Hprefix : forall j, (j < length samples)%nat ->
     position (run_timers (map counting (firstn j samples)) w1)
       = Z.of_nat j - stepCount).
  { intros j Hj.
    destruct (optimise_z_starts_step_sweep w stepCount voltCount Hpos)
      as (Hab & Hsl & _ & Hd & Hflt & Ht1 & Hcur & _ & Hn & Htr).
    { specialize (Hf 0%nat ltac:(lia)). now rewrite Nat.add_0_r in Hf. }
    { specialize (Hf 1%nat ltac:(lia)).
      now replace (hw_calls w + 1)%nat with (S (hw_calls w)) in Hf by lia. }
    fold w1 in Hab, Hsl, Hd, Hflt, Ht1, Hcur, Hn, Htr.
    rewrite Ht in Ht1. cbn in Ht1.
    assert (Hj' : length (firstn j samples) = j)
      by (rewrite length_firstn; lia).
    destruct (step_sampling_loop (firstn j samples) w1)
      as (_ & _ & _ & _ & _ & Htrj); auto.
    - rewrite Hcur, Hsl, Hj'. lia.
    - intros k Hk. rewrite Hflt, Hn.
      specialize (Hf (S (S k)) ltac:(lia)).
      now replace (hw_calls w + S (S k))%nat
        with (S (S (hw_calls w)) + k)%nat in Hf by lia.
    - unfold position. rewrite Htrj, Htr, <- app_assoc, skipn_own_trace.
      rewrite steps_moved_app, steps_moved_step_ticks, Hj'.
      unfold step_sweep_out. cbn [steps_moved Axis_eqb]. lia. }
  split; [exact Hprefix|].
  destruct (samples_split samples (Z.to_nat (2 * stepCount)))
    as (Hsplit & Hlen').
  { rewrite Hlen. lia. }
  set (cs := removelast samples) in *. set (c := last samples 0) in *.
  destruct (argmax_nonempty (cs ++ [c])) as (i & Harg).
  { destruct cs; discriminate. }
  destruct (step_sweep_completes w stepCount voltCount cs c i
              Hpos Ht Hlen') as (_ & Htr2 & _ & _ & Htr3); auto.
  { intros k Hk. apply Hf. lia. }
  fold w1 in Htr2, Htr3.
  assert (Hw' : run_timers (map counting samples) w1
                = fire (counting c) (run_timers (map counting cs) w1)).
  { rewrite Hsplit at 1. now rewrite map_app, run_timers_app. }
  pose proof (argmax_first_max _ _ Harg) as Hfm.
  rewrite <- Hsplit in Hfm.
  assert (Hi : (i < length samples)%nat) by apply Hfm.
  assert (Hend : position (run_timers (map counting samples) w1)
                 = Z.of_nat i - stepCount).
  { unfold position. rewrite Hw', Htr3, Htr2.
    rewrite <- !app_assoc, skipn_own_trace, !steps_moved_app.
    rewrite (Hf (Z.to_nat (2 * stepCount + 2)) ltac:(lia)).
    assert (Hticks : steps_moved axis_z
                       (concat (repeat (step_tick (optimise_delay (self w)))
                                  (Z.to_nat (2 * stepCount))))
                     = 2 * stepCount).
    { rewrite <- Hlen', <- flat_map_const, steps_moved_step_ticks. lia. }
    rewrite Hticks.
    unfold step_sweep_out, corrective_move, step_sweep_end.
    destruct (0 <? 2 * stepCount - Z.of_nat i) eqn:Hoff;
      destruct (0 <? voltCount); cbn [steps_moved Axis_eqb app];
      try (apply Z.ltb_ge in Hoff); lia. }
  exists i. split; [assumption|]. split; [assumption|].
  now rewrite Hend, (Hprefix i Hi).
Qed.

(** X9 on a sweep of one step each way, samples 5, 7, 6. *)
Lemma step_sweep_returns_to_optimum_witness :
  let w := world0 no_fault in
  let w1 := exec (optimise_z 1 0) w in
  let position w0 :=
    steps_moved axis_z (skipn (length (trace w)) (trace w0)) in
  (forall j, (j < length [5; 7; 6])%nat ->
     position (run_timers (map counting (firstn j [5; 7; 6])) w1)
       = Z.of_nat j - 1) /\
  exists maxIndex : nat,
    first_max [5; 7; 6] maxIndex /\
    position (run_timers (map counting [5; 7; 6]) w1)
      = Z.of_nat maxIndex - 1 /\
    position (run_timers (map counting [5; 7; 6]) w1)
      = position (run_timers (map counting (firstn maxIndex [5; 7; 6])) w1).
Proof.
  apply (step_sweep_returns_to_optimum (world0 no_fault) 1 0 [5; 7; 6]);
    [lia | reflexivity | reflexivity | intros; reflexivity].
Defined.

(** ** The jog flags after a sample *)

Lemma np_sign_is_direction (q : Q) : is_direction (np_sign q).
Proof.
  unfold is_direction.
  destruct (Q_sign_cases q) as [(-> & _)|[(-> & _)|(-> & _)]]; auto.
Qed.

Lemma desired_is_direction (js : JoystickState) (a : Axis) :
  is_direction (desired js a).
Proof.
  destruct (desired_cases js) as [[Hx|Hx] [Hy|Hy]];
    destruct a; cbn [desired] in *;
    rewrite ?Hx, ?Hy; try apply np_sign_is_direction;
    unfold is_direction; auto.
Qed.

Lemma flag_z_desired (z : Q) (r : Z) :
  is_direction r -> snd (flag_z z r) = np_sign z.
Proof.
  unfold flag_z. intros [-> | [-> | ->]]; sign_cases z; reflexivity.
Qed.

Lemma flag_xy_desired (a : Axis) (req : Z) (v : Q) (r : Z) :
  req = 0 \/ req = np_sign v ->
  is_direction r ->
  snd (flag_move a req v (snd (flag_stop a req r))) = req.
Proof.
  unfold flag_stop, flag_move.
  intros Hreq [-> | [-> | ->]]; sign_cases v; destruct Hreq as [-> | ->];
    reflexivity.
Qed.

(** From flags that are directions, a sample leaves each flag at the
    direction it desires. *)
Lemma jog_plan_desired (js : JoystickState) (s : Self) :
  (forall a, is_direction (jog_running a s)) ->
  forall a, jog_running a (snd (jog_plan js s)) = desired js a.
Proof.
  intros Hdir a.
  destruct (desired_cases js) as [Hx Hy].
  pose proof (flag_z_desired (y_right js) _ (Hdir axis_z)) as Hz.
  pose proof (flag_xy_desired axis_x _ (x_left js) _ Hx (Hdir axis_x)) as Hfx.
  pose proof (flag_xy_desired axis_y _ (y_left js) _ Hy (Hdir axis_y)) as Hfy.
  rewrite jog_plan_flags. cbv zeta. cbn [snd].
  destruct s as [xj yj zj delay ab slen vlen cur vcur counts].
  destruct a; cbn in *; assumption.
Qed.

Lemma run_joystick_app (s1 s2 : list JoystickState) (w : World) :
  run_joystick (s1 ++ s2) w = run_joystick s2 (run_joystick s1 w).
Proof. unfold run_joystick. apply fold_left_app. Qed.

Lemma run_joystick_directions (samples : list JoystickState) : forall w,
  (forall a, is_direction (jog_running a (self w))) ->
  forall a, is_direction (jog_running a (self (run_joystick samples w))).
Proof.
  induction samples as [|js samples IH]; intros w Hdir; [exact Hdir|].
  rewrite run_joystick_cons. apply IH. intros a.
  destruct (joystick_step js w) as (-> & _).
  rewrite jog_plan_desired by assumption. apply desired_is_direction.
Qed.

(** X10: started with jog flags that are directions (they are 0 after
    [on_activate]), the translator keeps them so, and after every sample
    each flag is the direction that sample desires for its axis: 0 in the
    dead zone, the sign of the reading where an axis is to move.  With a
    positioner that accepts every call, that is also the last direction
    commanded on the axis: the stage does what the last sample asks. *)
Theorem jog_flags_equal_desired
    (w : World) (samples : list JoystickState) (js : JoystickState) :
  (forall a, is_direction (jog_running a (self w))) ->
  let w' := run_joystick (samples ++ [js]) w in
  (forall a, jog_running a (self w') = desired js a) /\
  ((forall k, hw_fault w k = None) ->
   (forall a, jog_running a (self w) = last_commanded a (trace w)) ->
   forall a, last_commanded a (trace w') = desired js a).
Proof.
  intros Hdir w'.
  assert (Hflags : forall a, jog_running a (self w') = desired js a).
  { intros a. subst w'. rewrite run_joystick_app.
    cbn [run_joystick fold_left].
    destruct (joystick_step js (run_joystick samples w)) as (-> & _).
    apply jog_plan_desired. now apply run_joystick_directions. }
  split; [exact Hflags|].
  intros Hnf Hinv a.
  rewrite <- Hflags. symmetry.
  now apply jog_flags_follow_commands.
Qed.

(** X10 after [on_activate]: the stick pushed up, then right and up. *)
Lemma jog_flags_equal_desired_witness :
  let js := mkJoystickState (9 # 10) (8 # 10) 0 in
  let w' := run_joystick ([mkJoystickState 0 (9 # 10) 0] ++ [js])
              (world0 no_fault) in
  (jog_running axis_x (self w') = desired js axis_x /\
   jog_running axis_y (self w') = desired js axis_y /\
   jog_running axis_z (self w') = desired js axis_z) /\
  (last_commanded axis_x (trace w') = desired js axis_x /\
   last_commanded axis_y (trace w') = desired js axis_y /\
   last_commanded axis_z (trace w') = desired js axis_z).
Proof.
  assert (Hdir : forall a,
            is_direction (jog_running a (self (world0 no_fault))))
    by (intros []; right; left; reflexivity).
  destruct (jog_flags_equal_desired (world0 no_fault)
              [mkJoystickState 0 (9 # 10) 0]
              (mkJoystickState (9 # 10) (8 # 10) 0) Hdir)
    as (Hflags & Hlast).
  split; [repeat split; apply Hflags|].
  assert (Hnf : forall k, hw_fault (world0 no_fault) k = None)
    by reflexivity.
  assert (Hinv : forall a, jog_running a (self (world0 no_fault)) =
                           last_commanded a (trace (world0 no_fault)))
    by (intros []; reflexivity).
  repeat split; apply (Hlast Hnf Hinv).
Defined.

(** ** The sector policy as a whole *)

Lemma Qlt_bool_iff (a b : Q) : Qlt_bool a b = true <-> (a < b)%Q.
Proof.
  unfold Qlt_bool. rewrite negb_true_iff.
  split.
  - intros H. apply Qnot_le_lt. intros Hle.
    apply Qle_bool_iff in Hle. congruence.
  - intros H. destruct (Qle_bool b a) eqn:E; [|reflexivity].
    apply Qle_bool_iff in E. exfalso. apply (Qlt_not_le _ _ H E).
Qed.

Lemma np_sign_zero (q : Q) : np_sign q = 0 <-> (q == 0)%Q.
Proof.
  destruct q as [[|n|n] d]; cbv; split; intros H; congruence.
Qed.

Lemma np_sign_opp (q : Q) : np_sign (- q) = - np_sign q.
Proof. destruct q as [[|n|n] d]; reflexivity. Qed.

Lemma Qlt_bool_compat (a b a' b' : Q) :
  (a == a')%Q -> (b == b')%Q -> Qlt_bool a b = Qlt_bool a' b'.
Proof.
  intros Ha Hb.
  destruct (Qlt_bool a b) eqn:E1, (Qlt_bool a' b') eqn:E2; try reflexivity.
  - apply Qlt_bool_iff in E1. rewrite Ha, Hb in E1.
    apply Qlt_bool_iff in E1. congruence.
  - apply Qlt_bool_iff in E2. rewrite <- Ha, <- Hb in E2.
    apply Qlt_bool_iff in E2. congruence.
Qed.

Lemma Qeq_bool_compat (a a' : Q) :
  (a == a')%Q -> Qeq_bool a 0 = Qeq_bool a' 0.
Proof.
  intros Ha.
  destruct (Qeq_bool a 0) eqn:E1, (Qeq_bool a' 0) eqn:E2; try reflexivity.
  - apply Qeq_bool_iff in E1. rewrite Ha in E1.
    apply Qeq_bool_iff in E1. congruence.
  - apply Qeq_bool_iff in E2. rewrite <- Ha in E2.
    apply Qeq_bool_iff in E2. congruence.
Qed.

Lemma Qabs_double (q : Q) : (Qabs (2 * q) == 2 * Qabs q)%Q.
Proof. rewrite Qabs_Qmult. reflexivity. Qed.


Lemma diagonal_sign (q : Q) :
  (if negb (Qeq_bool q 0) then np_sign q else 0) = np_sign q.
Proof.
  destruct (Qeq_bool q 0) eqn:E; [|reflexivity].
  cbn. symmetry. apply np_sign_zero. now apply Qeq_bool_iff.
Qed.

(** [required] with the diagonal branch read as the two signs. *)
Lemma required_signs (x y : Q) :
  required x y =
    if Qlt_bool (x * x + y * y) (1 # 100) then (0, 0)
    else if Qlt_bool (Qabs (2 * x)) (Qabs y) then (0, np_sign y)
    else if Qlt_bool (Qabs (2 * y)) (Qabs x) then (np_sign x, 0)
    else (np_sign x, np_sign y).
Proof. unfold required. now rewrite !diagonal_sign. Qed.

Lemma Qabs_double_opp (q : Q) : (Qabs (2 * - q) == Qabs (2 * q))%Q.
Proof.
  setoid_replace (2 * - q)%Q with (- (2 * q))%Q by ring. apply Qabs_opp.
Qed.

Lemma sectors_exclusive (x y : Q) :
  Qlt_bool (Qabs (2 * x)) (Qabs y) = true ->
  Qlt_bool (Qabs (2 * y)) (Qabs x) = false.
Proof.
  intros Hy. apply Qlt_bool_iff in Hy.
  destruct (Qlt_bool (Qabs (2 * y)) (Qabs x)) eqn:Hx; [|reflexivity].
  apply Qlt_bool_iff in Hx.
  rewrite Qabs_double in Hx, Hy.
  pose proof (Qabs_nonneg x). pose proof (Qabs_nonneg y). lra.
Qed.

(** X12: the sector policy is symmetric.  Mirroring the stick in x (or in
    y) mirrors the required x (or y) direction and leaves the other; and
    exchanging the two readings exchanges the two required directions: the
    pure-y and pure-x sectors never overlap, so the order of their tests in
    the source does not matter. *)
Theorem required_symmetric (x y : Q) :
  required (- x) y = (- fst (required x y), snd (required x y)) /\
  required x (- y) = (fst (required x y), - snd (required x y)) /\
  required y x = (snd (required x y), fst (required x y)).
Proof.
  rewrite !required_signs.
  split; [|split].
  - rewrite (Qlt_bool_compat (- x * - x + y * y) (1 # 100)
               (x * x + y * y) (1 # 100)) by (try ring; reflexivity).
    rewrite (Qlt_bool_compat (Qabs (2 * - x)) (Qabs y)
               (Qabs (2 * x)) (Qabs y))
      by (try apply Qabs_double_opp; reflexivity).
    rewrite (Qlt_bool_compat (Qabs (2 * y)) (Qabs (- x))
               (Qabs (2 * y)) (Qabs x))
      by (try apply Qabs_opp; reflexivity).
    rewrite np_sign_opp.
    repeat match goal with
           | |- context [if ?c then _ else _] => destruct c
           end; reflexivity.
  - rewrite (Qlt_bool_compat (x * x + - y * - y) (1 # 100)
               (x * x + y * y) (1 # 100)) by (try ring; reflexivity).
    rewrite (Qlt_bool_compat (Qabs (2 * x)) (Qabs (- y))
               (Qabs (2 * x)) (Qabs y))
      by (try apply Qabs_opp; reflexivity).
    rewrite (Qlt_bool_compat (Qabs (2 * - y)) (Qabs x)
               (Qabs (2 * y)) (Qabs x))
      by (try apply Qabs_double_opp; reflexivity).
    rewrite np_sign_opp.
    repeat match goal with
           | |- context [if ?c then _ else _] => destruct c
           end; reflexivity.
  - rewrite (Qlt_bool_compat (y * y + x * x) (1 # 100)
               (x * x + y * y) (1 # 100)) by (try ring; reflexivity).
    destruct (Qlt_bool (x * x + y * y) (1 # 100)); [reflexivity|].
    destruct (Qlt_bool (Qabs (2 * x)) (Qabs y)) eqn:Hy.
    + now rewrite (sectors_exclusive x y Hy).
    + destruct (Qlt_bool (Qabs (2 * y)) (Qabs x)); reflexivity.
Qed.

(** ** A step sweep followed by a volt sweep *)

Lemma optimisation_step_finishes_session (w : World) :
  abort (self w) = false ->
  module_state (counter w) = locked ->
  sweep_length (self w) <= current_step (self w) ->
  same_session w (exec _optimisation_step w).
Proof.
  open_world w. intros -> -> Hge. apply Z.ltb_ge in Hge.
  destruct (argmax_snoc counts c) as (i & Hi).
  unfold same_session. run_method. rewrite Hge. cbn. rewrite Hi. cbn.
  destruct (0 <? 2 * slen - Z.of_nat i); cbn;
    [destruct (flt calls); cbn|];
    destruct (0 <? vlen); cbn; auto.
Qed.

(** What the step phase hands over to the volt phase. *)
Lemma step_sweep_session (w : World) (steps volts : Z) (cs : list Z) (c : Z) :
  0 < steps ->
  timers w = [] ->
  length cs = Z.to_nat (2 * steps) ->
  (forall k, (k < Z.to_nat (2 * steps + 2))%nat ->
             hw_fault w (hw_calls w + k) = None) ->
  let w3 := fire (counting c)
              (run_timers (map counting cs)
                 (exec (optimise_z steps volts) w)) in
  abort (self w3) = false /\
  v_sweep_length (self w3) = volts /\
  optimise_delay (self w3) = optimise_delay (self w) /\
  hw_fault w3 = hw_fault w.
Proof.
  intros Hpos Ht Hlen Hf.
  destruct (optimise_z_starts_step_sweep w steps volts Hpos)
    as (Hab & Hsl & Hvl & Hd & Hflt & Ht1 & Hcur & Hcs & Hn & Htr).
  { specialize (Hf 0%nat ltac:(lia)). now rewrite Nat.add_0_r in Hf. }
  { specialize (Hf 1%nat ltac:(lia)).
    now replace (hw_calls w + 1)%nat with (S (hw_calls w)) in Hf by lia. }
  set (w1 := exec (optimise_z steps volts) w) in *.
  rewrite Ht in Ht1. cbn in Ht1.
  destruct (step_sampling_loop cs w1)
    as ((Hab2 & Hsl2 & Hvl2 & Hd2 & Hflt2) & Ht2 & Hcur2 & _); auto.
  { rewrite Hcur, Hsl, Hlen. lia. }
  { intros k Hk. rewrite Hflt, Hn.
    specialize (Hf (S (S k)) ltac:(lia)).
    now replace (hw_calls w + S (S k))%nat with (S (S (hw_calls w)) + k)%nat
      in Hf by lia. }
  set (w2 := run_timers (map counting cs) w1) in *.
  cbv zeta.
  assert (Hfire : fire (counting c) w2 =
                  exec _optimisation_step
                    (set_counter (counting c) (set_timers [] w2)))
    by (unfold fire; now rewrite Ht2).
  destruct (optimisation_step_finishes_session
              (set_counter (counting c) (set_timers [] w2)))
    as (Hab3 & _ & Hvl3 & Hd3 & Hflt3); cbn.
  { congruence. }
  { reflexivity. }
  { rewrite Hsl2, Hcur2, Hcur, Hsl, Hlen. lia. }
  cbn in Hab3, Hvl3, Hd3, Hflt3. rewrite <- Hfire in Hab3, Hvl3, Hd3, Hflt3.
  repeat split; congruence.
Qed.

Lemma occurrences_app (p : Event -> bool) (tr1 tr2 : list Event) :
  occurrences p (tr1 ++ tr2) = (occurrences p tr1 + occurrences p tr2)%nat.
Proof. unfold occurrences. now rewrite filter_app, length_app. Qed.

Lemma occurrences_flat_map_none {A} (p : Event -> bool)
    (f : A -> list Event) (l : list A) :
  (forall x, occurrences p (f x) = 0%nat) ->
  occurrences p (flat_map f l) = 0%nat.
Proof.
  intros Hf. induction l as [|x l IH]; [reflexivity|].
  cbn [flat_map]. now rewrite occurrences_app, Hf, IH.
Qed.

Lemma offset_writes_step_ticks (delay : Z) (cs : list Z) :
  offset_writes axis_z (flat_map (fun _ => step_tick delay) cs) = [].
Proof.
  induction cs as [|c cs IH]; [reflexivity|].
  cbn [flat_map]. now rewrite offset_writes_app, IH.
Qed.

Lemma steps_moved_volt_ticks (delay : Z) (cs : list Z) :
  steps_moved axis_z (flat_map (volt_tick delay) cs) = 0.
Proof.
  induction cs as [|c cs IH]; [reflexivity|].
  cbn [flat_map]. now rewrite steps_moved_app, IH.
Qed.

Lemma last_volt_sweep_end (tr : list Event) (i : Z) (d : Event) :
  last (tr ++ volt_sweep_end i None) d = sigOptimisationDone.
Proof.
  unfold volt_sweep_end. cbn [app].
  change [sigCountDataUpdated; log_debug (msg_optimum_volts i);
          Hw (stage_hw.set_axis_config axis_z [(offset_voltage, i)]) None;
          sigOptimisationDone]
    with ([sigCountDataUpdated; log_debug (msg_optimum_volts i);
           Hw (stage_hw.set_axis_config axis_z [(offset_voltage, i)]) None]
          ++ [sigOptimisationDone]).
  rewrite app_assoc. apply last_last.
Qed.

(** X13: [optimise_z stepCount voltCount] with both counts positive, on a
    positioner that accepts every call and a counter that stays locked, runs
    the step sweep on its [2 * stepCount + 1] samples, then, one timer
    later, the volt sweep on its [voltCount + 1] samples, and stops.  The
    done signal is sent once, as the very last thing; the counter is started
    twice, once per phase, and never stopped; the samples kept are those of
    the volt phase; z ends at the place of the best step sample less the
    [voltCount / 20 + 1] steps the volt sweep backs off; and the offset
    voltage is zeroed, swept through 0, ..., [voltCount - 1] and set to the
    index of the best volt sample. *)
Theorem chained_sweep_runs_both_phases
    (w : World) (stepCount voltCount : Z) (samples1 samples2 : list Z)
    (cv : CounterView) :
  0 < stepCount ->
  0 < voltCount ->
  timers w = [] ->
  (forall k, hw_fault w k = None) ->
  length samples1 = Z.to_nat (2 * stepCount + 1) ->
  length samples2 = Z.to_nat (voltCount + 1) ->
  let w' := run_timers (map counting samples1 ++ cv :: map counting samples2)
              (exec (optimise_z stepCount voltCount) w) in
  let evs := skipn (length (trace w)) (trace w') in
  timers w' = [] /\
  sweep_counts (self w') = samples2 /\
  occurrences is_done evs = 1%nat /\
  last evs startCount = sigOptimisationDone /\
  occurrences is_startCount evs = 2%nat /\
  occurrences is_stopCount evs = 0%nat /\
  exists i1 i2 : nat,
    first_max samples1 i1 /\
    first_max samples2 i2 /\
    steps_moved axis_z evs
      = (Z.of_nat i1 - stepCount) - (voltCount / 20 + 1) /\
    offset_writes axis_z evs
      = 0 :: map Z.of_nat (seq 0 (Z.to_nat voltCount)) ++ [Z.of_nat i2].
Proof.
  intros Hn Hv Ht Hnf Hlen1 Hlen2 w' evs.
  destruct (samples_split samples1 (Z.to_nat (2 * stepCount)))
    as (Hsplit1 & Hlen1'); [rewrite Hlen1; lia|].
  destruct (samples_split samples2 (Z.to_nat voltCount))
    as (Hsplit2 & Hlen2'); [rewrite Hlen2; lia|].
  set (cs1 := removelast samples1) in *. set (c1 := last samples1 0) in *.
  set (cs2 := removelast samples2) in *. set (c2 := last samples2 0) in *.
  destruct (argmax_snoc cs1 c1) as (i1 & Harg1).
  destruct (argmax_snoc cs2 c2) as (i2 & Harg2).
  set (w1 := exec (optimise_z stepCount voltCount) w) in *.
  set (w3 := fire (counting c1) (run_timers (map counting cs1) w1)).
  destruct (step_sweep_completes w stepCount voltCount cs1 c1 i1
              Hn Ht Hlen1') as (_ & Htr2 & _ & Ht3 & Htr3); auto.
  destruct (step_sweep_session w stepCount voltCount cs1 c1 Hn Ht Hlen1')
    as (Hab3 & Hvl3 & Hd3 & Hflt3); auto.
  fold w1 in Htr2, Ht3, Htr3, Hab3, Hvl3, Hd3, Hflt3.
  fold w3 in Ht3, Htr3, Hab3, Hvl3, Hd3, Hflt3.
  apply Z.ltb_lt in Hv. rewrite Hv in Ht3.
  set (W := set_counter cv (set_timers [] w3)).
  assert (HW : fire cv w3 = exec _start_volt_optimisation W)
    by (unfold fire; now rewrite Ht3).
  destruct (volt_sweep_completes W voltCount cs2 c2 i2)
    as (_ & _ & Htr5 & Hcs6 & Ht6 & Htr6); auto.
  { now apply Z.ltb_lt. }
  { intros k _. cbn. rewrite Hflt3. apply Hnf. }
  assert (Hw' : w' = fire (counting c2)
                       (run_timers (map counting cs2)
                          (exec _start_volt_optimisation W))).
  { subst w'. rewrite Hsplit1 at 1. rewrite Hsplit2 at 1.
    rewrite !map_app, <- app_assoc, run_timers_app. cbn [map app].
    rewrite !run_timers_cons. fold w3. rewrite HW.
    now rewrite run_timers_app. }
  assert (Hevs : evs =
    step_sweep_out (optimise_delay (self w)) stepCount ++
    flat_map (fun _ => step_tick (optimise_delay (self w))) cs1 ++
    [sigCountDataUpdated;
     log_debug (msg_optimum_steps (2 * stepCount - Z.of_nat i1))] ++
    corrective_move (2 * stepCount - Z.of_nat i1) None ++
    [step_sweep_end (optimise_delay (self w)) voltCount] ++
    volt_sweep_out (optimise_delay (self w)) voltCount ++
    flat_map (volt_tick (optimise_delay (self w)))
      (cursors 0 (Z.to_nat voltCount)) ++
    volt_sweep_end (Z.of_nat i2) None).
  { subst evs. rewrite Hw', Htr6, Htr5.
    change (trace W) with (trace w3).
    change (hw_fault W) with (hw_fault w3).
    change (optimise_delay (self W)) with (optimise_delay (self w3)).
    rewrite Htr3, Htr2, Hflt3, Hd3, !Hnf.
    rewrite flat_map_const, Hlen1', <- !app_assoc.
    now rewrite skipn_own_trace. }
  pose proof (argmax_first_max _ _ Harg1) as Hfm1.
  pose proof (argmax_first_max _ _ Harg2) as Hfm2.
  rewrite <- Hsplit1 in Hfm1. rewrite <- Hsplit2 in Hfm2.
  assert (Hi1 : (i1 < length samples1)%nat) by apply Hfm1.
  assert (Hstep_end : step_sweep_end (optimise_delay (self w)) voltCount
            = singleShot (optimise_delay (self w) * 4)
                slot_start_volt_optimisation)
    by (unfold step_sweep_end; now rewrite Hv).
  rewrite Hstep_end in Hevs.
  split; [now rewrite Hw'|].
  split; [now rewrite Hw', Hcs6|].
  rewrite Hevs.
  split; [|split; [|split; [|split]]].
  - rewrite !occurrences_app.
    rewrite !occurrences_flat_map_none by reflexivity.
    unfold corrective_move.
    now destruct (0 <? 2 * stepCount - Z.of_nat i1).
  - rewrite !app_assoc. apply last_volt_sweep_end.
  - rewrite !occurrences_app.
    rewrite !occurrences_flat_map_none by reflexivity.
    unfold corrective_move.
    now destruct (0 <? 2 * stepCount - Z.of_nat i1).
  - rewrite !occurrences_app.
    rewrite !occurrences_flat_map_none by reflexivity.
    unfold corrective_move.
    now destruct (0 <? 2 * stepCount - Z.of_nat i1).
  - exists i1, i2. split; [assumption|]. split; [assumption|]. split.
    + rewrite !steps_moved_app, steps_moved_step_ticks,
        steps_moved_volt_ticks, Hlen1'.
      unfold step_sweep_out, corrective_move, volt_sweep_out, volt_sweep_end.
      destruct (0 <? 2 * stepCount - Z.of_nat i1) eqn:Hoff;
        cbn [steps_moved Axis_eqb app];
        try (apply Z.ltb_ge in Hoff); lia.
    + rewrite !offset_writes_app, offset_writes_step_ticks,
        offset_writes_volt_ticks, offset_writes_volt_sweep_out,
        offset_writes_volt_sweep_end, cursors_seq.
      unfold corrective_move.
      destruct (0 <? 2 * stepCount - Z.of_nat i1); reflexivity.
Qed.

(** X13 for [optimise_z 1 2]. *)
Lemma chained_sweep_runs_both_phases_witness :
  let w := world0 no_fault in
  let w' := run_timers
              (map counting [5; 7; 6] ++ counting 0 :: map counting [3; 9; 4])
              (exec (optimise_z 1 2) w) in
  let evs := skipn (length (trace w)) (trace w') in
  timers w' = [] /\
  sweep_counts (self w') = [3; 9; 4] /\
  occurrences is_done evs = 1%nat /\
  last evs startCount = sigOptimisationDone /\
  occurrences is_startCount evs = 2%nat /\
  occurrences is_stopCount evs = 0%nat /\
  exists i1 i2 : nat,
    first_max [5; 7; 6] i1 /\
    first_max [3; 9; 4] i2 /\
    steps_moved axis_z evs = (Z.of_nat i1 - 1) - (2 / 20 + 1) /\
    offset_writes axis_z evs
      = 0 :: map Z.of_nat (seq 0 (Z.to_nat 2)) ++ [Z.of_nat i2].
Proof.
  apply (chained_sweep_runs_both_phases (world0 no_fault) 1 2
           [5; 7; 6] [3; 9; 4] (counting 0));
    [lia | lia | reflexivity | reflexivity | reflexivity | reflexivity].
Defined.

(** ** Sweeps of one phase *)

(** X14: a sweep of one phase that runs to the end on a positioner that
    accepts every call sends the done signal once, as its last act, and then
    no timer is pending; it starts the counter once and never stops it (the
    counter is left running).  This holds for a step sweep with no volt
    sweep asked for, and for a volt sweep started on its own. *)
Theorem single_phase_sweep_done_once
    (w : World) (stepCount voltCount : Z) (samples : list Z) :
  timers w = [] ->
  (forall k, hw_fault w k = None) ->
  let w' := run_timers (map counting samples)
              (exec (optimise_z stepCount voltCount) w) in
  let evs := skipn (length (trace w)) (trace w') in
  (0 < stepCount -> voltCount <= 0 ->
   length samples = Z.to_nat (2 * stepCount + 1) ->
   timers w' = [] /\
   occurrences is_done evs = 1%nat /\
   last evs startCount = sigOptimisationDone /\
   occurrences is_startCount evs = 1%nat /\
   occurrences is_stopCount evs = 0%nat) /\
  (stepCount <= 0 -> 0 < voltCount ->
   length samples = Z.to_nat (voltCount + 1) ->
   timers w' = [] /\
   occurrences is_done evs = 1%nat /\
   last evs startCount = sigOptimisationDone /\
   occurrences is_startCount evs = 1%nat /\
   occurrences is_stopCount evs = 0%nat).
Proof.
  intros Ht Hnf w' evs. split.
  - intros Hn Hv Hlen.
    destruct (samples_split samples (Z.to_nat (2 * stepCount)))
      as (Hsplit & Hlen'); [rewrite Hlen; lia|].
    set (cs := removelast samples) in *. set (c := last samples 0) in *.
    destruct (argmax_snoc cs c) as (i & Harg).
    destruct (step_sweep_completes w stepCount voltCount cs c i
                Hn Ht Hlen') as (_ & Htr2 & _ & Ht3 & Htr3); auto.
    assert (Hw' : w' = fire (counting c)
                         (run_timers (map counting cs)
                            (exec (optimise_z stepCount voltCount) w))).
    { subst w'. rewrite Hsplit at 1. now rewrite map_app, run_timers_app. }
    apply Z.ltb_ge in Hv.
    assert (Hevs : evs =
      step_sweep_out (optimise_delay (self w)) stepCount ++
      flat_map (fun _ => step_tick (optimise_delay (self w))) cs ++
      [sigCountDataUpdated;
       log_debug (msg_optimum_steps (2 * stepCount - Z.of_nat i))] ++
      corrective_move (2 * stepCount - Z.of_nat i) None ++
      [sigOptimisationDone]).
    { subst evs. rewrite Hw', Htr3, Htr2, !Hnf.
      unfold step_sweep_end. rewrite Hv.
      rewrite flat_map_const, Hlen', <- !app_assoc.
      now rewrite skipn_own_trace. }
    rewrite Hw', Ht3, Hv, Hevs.
    split; [reflexivity|].
    split; [|split; [|split]].
    + rewrite !occurrences_app.
      rewrite !occurrences_flat_map_none by reflexivity.
      unfold corrective_move.
      now destruct (0 <? 2 * stepCount - Z.of_nat i).
    + rewrite !app_assoc. apply last_last.
    + rewrite !occurrences_app.
      rewrite !occurrences_flat_map_none by reflexivity.
      unfold corrective_move.
      now destruct (0 <? 2 * stepCount - Z.of_nat i).
    + rewrite !occurrences_app.
      rewrite !occurrences_flat_map_none by reflexivity.
      unfold corrective_move.
      now destruct (0 <? 2 * stepCount - Z.of_nat i).
  - intros Hn Hv Hlen.
    destruct (samples_split samples (Z.to_nat voltCount))
      as (Hsplit & Hlen'); [rewrite Hlen; lia|].
    set (cs := removelast samples) in *. set (c := last samples 0) in *.
    destruct (argmax_snoc cs c) as (i & Harg).
    set (W := upd_self (fun s => set_abort false
                                   (set_v_sweep_length voltCount
                                      (set_sweep_length stepCount s))) w).
    assert (HW : exec (optimise_z stepCount voltCount) w
                 = exec _start_volt_optimisation W)
      by now apply optimise_z_starts_volt_sweep.
    destruct (volt_sweep_completes W voltCount cs c i)
      as (_ & _ & Htr2 & _ & Ht3 & Htr3); auto.
    { intros k _. apply Hnf. }
    assert (Hw' : w' = fire (counting c)
                         (run_timers (map counting cs)
                            (exec _start_volt_optimisation W))).
    { subst w'. rewrite HW. rewrite Hsplit at 1.
      now rewrite map_app, run_timers_app. }
    assert (Hevs : evs =
      volt_sweep_out (optimise_delay (self w)) voltCount ++
      flat_map (volt_tick (optimise_delay (self w)))
        (cursors 0 (Z.to_nat voltCount)) ++
      volt_sweep_end (Z.of_nat i) None).
    { subst evs. rewrite Hw', Htr3, Htr2.
      change (trace W) with (trace w).
      change (hw_fault W) with (hw_fault w).
      change (optimise_delay (self W)) with (optimise_delay (self w)).
      rewrite !Hnf, <- !app_assoc. now rewrite skipn_own_trace. }
    rewrite Hw', Ht3, Hevs.
    split; [reflexivity|].
    split; [|split; [|split]].
    + rewrite !occurrences_app.
      now rewrite !occurrences_flat_map_none by reflexivity.
    + rewrite !app_assoc. apply last_volt_sweep_end.
    + rewrite !occurrences_app.
      now rewrite !occurrences_flat_map_none by reflexivity.
    + rewrite !occurrences_app.
      now rewrite !occurrences_flat_map_none by reflexivity.
Qed.

(** X14 for [optimise_z 5 0] on eleven samples. *)
Lemma single_phase_sweep_done_once_witness :
  let w := world0 no_fault in
  let samples := [1; 2; 5; 3; 1; 0; 1; 2; 3; 4; 5] in
  let w' := run_timers (map counting samples) (exec (optimise_z 5 0) w) in
  let evs := skipn (length (trace w)) (trace w') in
  timers w' = [] /\
  occurrences is_done evs = 1%nat /\
  last evs startCount = sigOptimisationDone /\
  occurrences is_startCount evs = 1%nat /\
  occurrences is_stopCount evs = 0%nat.
Proof.
  refine (proj1 (single_phase_sweep_done_once (world0 no_fault) 5 0
                   [1; 2; 5; 3; 1; 0; 1; 2; 3; 4; 5]
                   eq_refl (fun _ => eq_refl)) _ _ _);
    [lia | lia | reflexivity].
Defined.

(** ** The joystick translator, offset voltage and a running sweep *)

Lemma motion_with_offset_app (tr1 tr2 : list Event) : forall cfg,
  motion_with_offset cfg (tr1 ++ tr2) =
  motion_with_offset cfg tr1 ++
  motion_with_offset (config_after cfg tr1) tr2.
Proof.
  induction tr1 as [|e tr1 IH]; intros cfg; [reflexivity|].
  destruct e as [c [f|]| | | | | | |]; cbn [app motion_with_offset config_after];
    rewrite ?IH, <- ?app_assoc; reflexivity.
Qed.

Lemma config_after_app (tr1 tr2 : list Event) : forall cfg,
  config_after cfg (tr1 ++ tr2) = config_after (config_after cfg tr1) tr2.
Proof.
  induction tr1 as [|e tr1 IH]; intros cfg; [reflexivity|].
  destruct e as [c [f|]| | | | | | |]; cbn [app config_after]; apply IH.
Qed.

(** A gate call of the translator never moves an axis that has an offset
    voltage, and it leaves the timers and the counter alone. *)
Lemma gate_zeroes (g : GateCall) (w : World) :
  exists evs,
    trace (gate_world g w) = trace w ++ evs /\
    motion_with_offset (hw_config w) evs = [] /\
    hw_config (gate_world g w) = config_after (hw_config w) evs /\
    timers (gate_world g w) = timers w /\
    counter (gate_world g w) = counter w.
Proof.
  destruct w as [s cfg flt calls cv ts tr]. cbn [hw_config timers counter].
  destruct g as [ax d|ax];
    unfold gate_world, run_gate, start_jog, stop_axis; run_method.
  - destruct (flt calls) eqn:Hf0; cbn.
    + eexists [_; _]. rewrite <- !app_assoc. repeat split.
    + destruct (flt (S calls)) eqn:Hf1; cbn.
      * eexists [_; _; _]. rewrite <- !app_assoc. repeat split.
        cbn. destruct ax; reflexivity.
      * eexists [_; _]. rewrite <- !app_assoc. repeat split.
        cbn. destruct ax; reflexivity.
  - destruct (flt calls) eqn:Hf0; cbn.
    + eexists [_; _]. rewrite <- !app_assoc. repeat split.
    + destruct (flt (S calls)) eqn:Hf1; cbn.
      * eexists [_; _; _]. rewrite <- !app_assoc. repeat split.
      * eexists [_; _]. rewrite <- !app_assoc. repeat split.
Qed.

Lemma run_gates_zeroes (gs : list GateCall) : forall w,
  exists evs,
    trace (run_gates gs w) = trace w ++ evs /\
    motion_with_offset (hw_config w) evs = [] /\
    hw_config (run_gates gs w) = config_after (hw_config w) evs /\
    timers (run_gates gs w) = timers w /\
    counter (run_gates gs w) = counter w.
Proof.
  induction gs as [|g gs IH]; intros w; cbn [run_gates].
  - exists []. rewrite app_nil_r. repeat split.
  - destruct (gate_zeroes g w) as (evs1 & Htr1 & Hm1 & Hc1 & Ht1 & Hcv1).
    destruct (IH (gate_world g w)) as (evs2 & Htr2 & Hm2 & Hc2 & Ht2 & Hcv2).
    exists (evs1 ++ evs2). split; [|split; [|split; [|split]]].
    + rewrite Htr2, Htr1. now rewrite app_assoc.
    + rewrite motion_with_offset_app, Hm1, <- Hc1. exact Hm2.
    + rewrite config_after_app, <- Hc1. exact Hc2.
    + now rewrite Ht2.
    + now rewrite Hcv2.
Qed.

(** X15: whatever the sticks read, whatever the jog flags and the positioner
    hold and whichever calls fault, [xbox_joystick_move] returns normally,
    never commands a motion of an axis that has a nonzero offset voltage,
    and leaves the pending timers, the counter and every attribute of a
    sweep (delay, abort flag, lengths, cursors, samples) as they were. *)
Theorem joystick_never_moves_with_offset (js : JoystickState) (w : World) :
  let w' := exec (xbox_joystick_move js) w in
  fst (xbox_joystick_move js w) = Return tt /\
  timers w' = timers w /\
  counter w' = counter w /\
  sweep_attributes (self w') = sweep_attributes (self w) /\
  exists evs,
    trace w' = trace w ++ evs /\
    motion_with_offset (hw_config w) evs = [].
Proof.
  unfold exec. rewrite xbox_joystick_move_plan. unfold run_plan.
  cbn [fst snd].
  destruct (run_gates_zeroes (fst (jog_plan js (self w))) w)
    as (evs & Htr & Hm & _ & Ht & Hcv).
  split; [reflexivity|].
  split; [exact Ht|].
  split; [exact Hcv|].
  split.
  - cbn [self upd_self]. rewrite jog_plan_flags. cbn [snd].
    destruct (self w); reflexivity.
  - exists evs. split; [exact Htr|exact Hm].
Qed.
